(** * ELL: value-algebra matrices, loop emitters, layer downcasts and
      container iterators

    A shallow embedding of the parts of the Embedded Learning Library
    whose specified behaviour is verified here:

    - [Utilities]: the exception codes the code throws;
    - [StlContainerIterator]: [StlContainerIteratorBase] (StlContainerIterator.h);
    - [NeuralLayers]: the [Layer] class hierarchy with [As]/[Is]
      (NeuralLayersInterface.h);
    - [Value]: [Matrix] over [Value] in the immediate (host memory) context
      (Matrix.cpp);
    - [Emitters]: the for and while loop emitters (IRLoopEmitter.h);
    - [StlContainerIteratorGet]: the iterators with [Get] and the loop of
      their clients (StlContainerIterator.h);
    - [LayerFamilies]: the layer type each layer class reports
      (NeuralLayersInterface.h);
    - [Compiler]: [MemMove], [MemCopy] and [ShiftAndUpdate]
      (IRFunctionEmitter.tcc);
    - [MatrixOperators]: the other compound assignments of [Matrix]
      (Matrix.cpp). *)

From Stdlib Require Import ZArith Lia.
From stdpp Require Import base option list numbers.

Local Open Scope Z_scope.

(* ===================================================================== *)
(** ** Exceptions *)
(* ===================================================================== *)

Module Utilities.

(** The [InputExceptionErrors] codes used by the embedded code. *)
Inductive InputExceptionErrors : Set :=
| indexOutOfRange
| invalidArgument
| sizeMismatch
| typeMismatch.

(** What a call does: it returns, it throws an [InputException], or it
    leaves the protocol of the program ([Fault]): an access outside every
    allocation, which is undefined behaviour in C++, or a failure that is
    not an [InputException]. *)
Inductive outcome (A : Type) : Type :=
| Ok (a : A)
| Throw (e : InputExceptionErrors)
| Fault.

Arguments Ok {A} a.
Arguments Throw {A} e.
Arguments Fault {A}.

(** [size_t] is 64 bits wide. *)
Definition size_t_modulus : Z := 2 ^ 64.

(** [static_cast<size_t>(x)] *)
Definition to_size_t (x : Z) : Z := x mod size_t_modulus.

End Utilities.

(* ===================================================================== *)
(** ** StlContainerIterator.h *)
(* ===================================================================== *)

Module StlContainerIterator.
Import Utilities.

(** An iterator of the underlying container is its position; [_current]
    and [_end] are the two members of the class. *)
Record StlContainerIteratorBase : Set := MakeStlContainerIterator
  { _current : Z; _end : Z }.

(** [bool IsValid() const { return _current != _end; }] *)
Definition IsValid (it : StlContainerIteratorBase) : bool :=
  negb (_current it =? _end it).

(** [bool HasSize() const { return true; }] *)
Definition HasSize (it : StlContainerIteratorBase) : bool := true.

(** [size_t NumItemsLeft() const { return _end - _current; }] *)
Definition NumItemsLeft (it : StlContainerIteratorBase) : Z :=
  to_size_t (_end it - _current it).

(** [if (IsValid()) { ++_current; }] *)
Definition Next (it : StlContainerIteratorBase) : StlContainerIteratorBase :=
  if IsValid it
  then {| _current := _current it + 1; _end := _end it |}
  else it.

(** [n] calls of [Next] in a row. *)
Definition NextN (n : nat) (it : StlContainerIteratorBase) : StlContainerIteratorBase :=
  Nat.iter n Next it.

(** The distance between the two positions is a [ptrdiff_t]. *)
Definition distance_representable (it : StlContainerIteratorBase) : Prop :=
  - 2 ^ 63 <= _end it - _current it < 2 ^ 63.

End StlContainerIterator.

(* ===================================================================== *)
(** ** NeuralLayersInterface.h *)
(* ===================================================================== *)

Module NeuralLayers.
Import Utilities.

(** [ell::predictors::neural::LayerType], as far as the Api classes
    return it from [GetLayerType]. *)
Inductive LayerType : Set :=
| activation | batchNormalization | bias | binaryConvolution | convolution
| fullyConnected | pooling | region | softmax | scaling.

(** The classes of the header.  [Layer] is the abstract base. *)
Inductive LayerClass : Set :=
| Layer
| ActivationLayer
| PReLUActivationLayer
| LeakyReLUActivationLayer
| BatchNormalizationLayer
| BiasLayer
| BinaryConvolutionalLayer
| ConvolutionalLayer
| FullyConnectedLayer
| PoolingLayer
| RegionDetectionLayer
| SoftmaxLayer
| ScalingLayer.

#[global] Instance LayerClass_eq_dec : EqDecision LayerClass.
Proof. solve_decision. Defined.

(** The direct base class of each class ([class X : public Y]). *)
Definition base (c : LayerClass) : option LayerClass :=
  match c with
  | Layer => None
  | PReLUActivationLayer | LeakyReLUActivationLayer => Some ActivationLayer
  | _ => Some Layer
  end.

(** The class itself and its bases, most derived first.  The hierarchy
    is at most three classes deep. *)
Definition bases (c : LayerClass) : list LayerClass :=
  c :: match base c with
       | None => []
       | Some b => b :: match base b with
                        | None => []
                        | Some b' => [b']
                        end
       end.

(** [c] is of family [T]: it is [T] or derives from it, by the class
    declarations ([class c : public b]). *)
Inductive is_a : LayerClass -> LayerClass -> Prop :=
| is_a_refl (c : LayerClass) : is_a c c
| is_a_base (c b T : LayerClass) : base c = Some b -> is_a b T -> is_a c T.

(** A layer object: its identity (where it lives) and its dynamic class.
    [Layer] has a pure virtual [GetLayerType], so no object has it as
    dynamic class; [As] and [Is] do not depend on that. *)
Record LayerObject : Set := { address : nat; dynamicClass : LayerClass }.

(** [GetLayerType] as each class overrides it (a derived activation
    layer inherits the override of [ActivationLayer]). *)
Definition GetLayerType (l : LayerObject) : option LayerType :=
  match dynamicClass l with
  | Layer => None
  | ActivationLayer | PReLUActivationLayer | LeakyReLUActivationLayer => Some activation
  | BatchNormalizationLayer => Some batchNormalization
  | BiasLayer => Some bias
  | BinaryConvolutionalLayer => Some binaryConvolution
  | ConvolutionalLayer => Some convolution
  | FullyConnectedLayer => Some fullyConnected
  | PoolingLayer => Some pooling
  | RegionDetectionLayer => Some region
  | SoftmaxLayer => Some softmax
  | ScalingLayer => Some scaling
  end.

(** [dynamic_cast<T*>(this)]: the same object, seen as a [T], when [T]
    is the dynamic class or one of its bases; the null pointer
    otherwise. *)
Definition dynamic_cast (T : LayerClass) (l : LayerObject) : option LayerObject :=
  if decide (T ∈ bases (dynamicClass l)) then Some l else None.

(** [template <class LayerType> LayerType& As()] *)
Definition As (T : LayerClass) (l : LayerObject) : outcome LayerObject :=
  match dynamic_cast T l with
  | None => Throw typeMismatch
  | Some ptr => Ok ptr
  end.

(** [template <class LayerType> bool Is()] *)
Definition Is (T : LayerClass) (l : LayerObject) : bool :=
  match dynamic_cast T l with
  | None => false
  | Some _ => true
  end.

End NeuralLayers.

(* ===================================================================== *)
(** ** The value library: Matrix.cpp *)
(* ===================================================================== *)

Module Value.
Import Utilities.

(** *** Host memory

    The immediate context computes on host memory.  The heap is the list
    of the allocations made so far; a pointer names an allocation and a
    cell in it.  Element data are integers: no property below depends
    on the arithmetic of an element type. *)

Abbreviation Heap := (list (list Z)).

Record Pointer : Set := { block : nat; cell : Z }.

Definition advance (p : Pointer) (n : Z) : Pointer :=
  {| block := block p; cell := cell p + n |}.

Definition load (h : Heap) (p : Pointer) : option Z :=
  match h !! block p with
  | Some b => if 0 <=? cell p then b !! Z.to_nat (cell p) else None
  | None => None
  end.

Definition store (h : Heap) (p : Pointer) (x : Z) : option Heap :=
  match h !! block p with
  | Some b =>
      if (0 <=? cell p) && (Z.to_nat (cell p) <? length b)%nat
      then Some (<[block p := <[Z.to_nat (cell p) := x]> b]> h)
      else None
  | None => None
  end.

(** *** The monad of the code: heap passing with exceptions *)

Definition M (A : Type) : Type := Heap -> Heap * outcome A.

Definition ret {A} (a : A) : M A := fun h => (h, Ok a).

Definition bind {A B} (m : M A) (k : A -> M B) : M B :=
  fun h => match m h with
           | (h', Ok a) => k a h'
           | (h', Throw e) => (h', Throw e)
           | (h', Fault) => (h', Fault)
           end.

Definition throw {A} (e : InputExceptionErrors) : M A := fun h => (h, Throw e).

Definition fault {A} : M A := fun h => (h, Fault).

Definition lift {A} (o : outcome A) : M A := fun h => (h, o).

Notation "'let*' x ':=' m 'in' k" := (bind m (fun x => k))
  (at level 10, x name, m at level 100, k at level 200).
Notation "'run' m 'then' k" := (bind m (fun _ => k))
  (at level 10, m at level 100, k at level 200).

(** Code that computes on descriptors only (types, layouts, pointers)
    and never reads or writes the heap has an [outcome], not an [M]. *)
Definition obind {A B} (o : outcome A) (k : A -> outcome B) : outcome B :=
  match o with
  | Ok a => k a
  | Throw e => Throw e
  | Fault => Fault
  end.

Notation "'let!' x ':=' o 'in' k" := (obind o (fun x => k))
  (at level 10, x name, o at level 100, k at level 200).

Definition load_cell (p : Pointer) : M Z :=
  fun h => match load h p with
           | Some x => (h, Ok x)
           | None => (h, Fault)
           end.

Definition store_cell (p : Pointer) (x : Z) : M unit :=
  fun h => match store h p x with
           | Some h' => (h', Ok tt)
           | None => (h, Fault)
           end.

(** [forM_]: run [f] on each element in order, stopping at the first
    exception. *)
Fixpoint for_each {A} (l : list A) (f : A -> M unit) : M unit :=
  match l with
  | [] => ret tt
  | a :: l' => run f a then for_each l' f
  end.

(** *** Element types *)

(** Modelled from the spec: [ValueType] (ValueType.h is not part of the
    sources), the small fixed set of scalar element types, with
    [Undefined] for a value that has none. *)
Inductive ValueType : Set :=
| Undefined | Void | Boolean | Char8 | Byte | Int16 | Int32 | Int64 | Float | Double.

#[global] Instance ValueType_eq_dec : EqDecision ValueType.
Proof. solve_decision. Defined.

(** *** Memory layouts *)

(** Modelled from the spec: [MemoryLayout] (MemoryLayout.h/.cpp are not
    part of the sources): per physical dimension the active size, the
    extent (allocated size) and the offset of the active region, the
    number of cells between consecutive entries, and the
    logical-to-physical dimension order ([dimensionOrder[i]] is the
    logical dimension stored at physical position [i]).  The definitions
    from here to [layout_wf] are its methods, modelled with it. *)
Record MemoryLayout : Set :=
  { size : list Z;
    extent : list Z;
    offset : list Z;
    increment : list Z;
    dimensionOrder : list nat }.

Definition NumDimensions (l : MemoryLayout) : nat := length (size l).
Definition GetExtent (l : MemoryLayout) : list Z := extent l.
Definition GetLogicalDimensionOrder (l : MemoryLayout) : list nat := dimensionOrder l.

(** Entry [i] is the product of the extents after [i]: the last physical
    dimension is contiguous. *)
Fixpoint ComputeCumulativeIncrement (ext : list Z) : list Z :=
  match ext with
  | [] => []
  | _ :: rest => foldr Z.mul 1 rest :: ComputeCumulativeIncrement rest
  end.

Definition GetMemorySize (l : MemoryLayout) : Z := foldr Z.mul 1 (extent l).

Fixpoint fits (sz off ext : list Z) : bool :=
  match sz, off, ext with
  | [], [], [] => true
  | s :: sz', o :: off', e :: ext' => (s + o <=? e) && fits sz' off' ext'
  | _, _, _ => false
  end.

(** Modelled from the spec: the four-argument constructor of
    [MemoryLayout].  It rejects an active region that does not fit in
    the extent and computes the increments. *)
Definition MemoryLayout_ctor (sz ext off : list Z) (order : list nat)
  : outcome MemoryLayout :=
  if fits sz off ext && (length order =? length sz)%nat
  then Ok {| size := sz; extent := ext; offset := off;
             increment := ComputeCumulativeIncrement ext;
             dimensionOrder := order |}
  else Throw invalidArgument.

Fixpoint find_index (d : nat) (order : list nat) : option nat :=
  match order with
  | [] => None
  | d' :: rest => if (d' =? d)%nat then Some 0%nat else S <$> find_index d rest
  end.

(** The physical position of a logical dimension. *)
Definition GetPhysicalDimension (l : MemoryLayout) (logicalDimension : nat) : option nat :=
  find_index logicalDimension (dimensionOrder l).

Definition GetLogicalDimensionActiveSize (l : MemoryLayout) (index : nat) : option Z :=
  match GetPhysicalDimension l index with
  | Some p => size l !! p
  | None => None
  end.

(** Logical coordinates in physical order. *)
Definition GetPhysicalCoordinatesFromLogical (l : MemoryLayout) (logical : list Z)
  : option (list Z) :=
  mapM (fun d => logical !! d) (dimensionOrder l).

Fixpoint entry_offset (incr off coords : list Z) : Z :=
  match incr, off, coords with
  | i :: incr', o :: off', c :: coords' => i * (c + o) + entry_offset incr' off' coords'
  | _, _, _ => 0
  end.

(** The distance in cells from the start of the memory to an entry. *)
Definition GetEntryOffset (l : MemoryLayout) (physical : list Z) : Z :=
  entry_offset (increment l) (offset l) physical.

Fixpoint remove_at {A} (i : nat) (l : list A) : list A :=
  match i, l with
  | _, [] => []
  | O, _ :: l' => l'
  | S i', a :: l' => a :: remove_at i' l'
  end.

(** Modelled from the spec: [GetSliceLayout], the layout of what is left
    when one physical dimension is fixed (a row or a column of a matrix):
    that dimension is dropped, the later logical dimensions are
    renumbered. *)
Definition GetSliceLayout (l : MemoryLayout) (physicalDimension : nat) : MemoryLayout :=
  let dropped := default 0%nat (dimensionOrder l !! physicalDimension) in
  {| size := remove_at physicalDimension (size l);
     extent := remove_at physicalDimension (extent l);
     offset := remove_at physicalDimension (offset l);
     increment := remove_at physicalDimension (increment l);
     dimensionOrder :=
       (fun d => if (dropped <? d)%nat then pred d else d)
         <$> remove_at physicalDimension (dimensionOrder l) |}.

(** [ScalarLayout]: one entry. *)
Definition ScalarLayout : MemoryLayout :=
  {| size := [1]; extent := [1]; offset := [0]; increment := [1];
     dimensionOrder := [0%nat] |}.

(** What the constructor guarantees of a layout, and that the offsets
    are not negative. *)
Definition layout_wf (l : MemoryLayout) : bool :=
  fits (size l) (offset l) (extent l)
  && forallb (fun o => 0 <=? o) (offset l)
  && bool_decide (increment l = ComputeCumulativeIncrement (extent l))
  && bool_decide (Permutation (dimensionOrder l) (seq 0 (length (size l)))).

(** *** Values *)

(** Modelled from the spec: [Value] (Value.h/.cpp are not part of the
    sources) in the immediate context: a host pointer (none for an empty
    value), an element type and, once the value is constrained, a
    layout.  Its accessors follow, modelled with it. *)
Record Value : Set :=
  { _data : option Pointer;
    _type : ValueType;
    _layout : option MemoryLayout }.

Definition Value_default : Value :=
  {| _data := None; _type := Undefined; _layout := None |}.

Definition IsDefined (v : Value) : bool := negb (bool_decide (_type v = Undefined)).
Definition IsEmpty (v : Value) : bool := bool_decide (_data v = None).
Definition IsConstrained (v : Value) : bool := bool_decide (is_Some (_layout v)).
Definition GetBaseType (v : Value) : ValueType := _type v.

(** The layout of an unconstrained value cannot be read. *)
Definition GetLayout (v : Value) : outcome MemoryLayout :=
  match _layout v with
  | Some l => Ok l
  | None => Fault
  end.

Definition SetLayout (v : Value) (l : MemoryLayout) : Value :=
  {| _data := _data v; _type := _type v; _layout := Some l |}.

(** A question to a layout about a dimension it does not have is not
    answered; how [MemoryLayout] reports it is outside the sources. *)
Definition layout_query {A} (o : option A) : outcome A :=
  match o with
  | Some a => Ok a
  | None => Fault
  end.

(** Modelled from the spec: [EmitterContext::Offset] in the immediate
    context: the value that starts at the entry with the given logical
    coordinates.  No allocation, no copy: the pointer moves inside the
    block.  A coordinate is a [Scalar] holding a constant; it is its
    integer here. *)
Definition Offset (begin : Value) (index : list Z) : outcome Value :=
  let! layout := GetLayout begin in
  let! physical := layout_query (GetPhysicalCoordinatesFromLogical layout index) in
  match _data begin with
  | None => Throw invalidArgument
  | Some p =>
      Ok {| _data := Some (advance p (GetEntryOffset layout physical));
            _type := _type begin;
            _layout := _layout begin |}
  end.

(** Modelled from the spec: [Allocate], fresh zeroed storage for a
    layout. *)
Definition Allocate (type : ValueType) (layout : MemoryLayout) : M Value :=
  fun h =>
    (h ++ [replicate (Z.to_nat (GetMemorySize layout)) 0],
     Ok {| _data := Some {| block := length h; cell := 0 |};
           _type := type;
           _layout := Some layout |}).

Definition range (n : Z) : list Z := Z.of_nat <$> seq 0 (Z.to_nat n).

(** Modelled from the spec: the context's [CopyData]: the cells of the
    source, as many as the layout of the destination spans, are written
    to the storage of the destination. *)
Definition CopyData (source destination : Value) : M unit :=
  match _data source, _data destination, _layout destination with
  | Some ps, Some pd, Some l =>
      for_each (range (GetMemorySize l))
        (fun i => let* x := load_cell (advance ps i) in store_cell (advance pd i) x)
  | _, _, _ => fault
  end.

#[global] Instance MemoryLayout_eq_dec : EqDecision MemoryLayout.
Proof. solve_decision. Defined.

(** Modelled from the spec: [Value::operator=(const Value&)].  An
    undefined or empty destination becomes another handle on the storage
    of [other]; a destination that has storage keeps it and receives the
    data of [other]. *)
Definition Value_assign (this other : Value) : M Value :=
  if negb (IsDefined this) then ret other
  else if negb (bool_decide (_type this = _type other)) then throw typeMismatch
  else if IsConstrained this && negb (bool_decide (_layout this = _layout other))
       then throw sizeMismatch
  else if IsEmpty this then ret other
  else run CopyData other this then ret this.

(** A scalar is a value with [ScalarLayout]; its datum is the cell its
    pointer names. *)
Definition Scalar_get (s : Value) : M Z :=
  match _data s with
  | Some p => load_cell p
  | None => fault
  end.

(** [scalar = x] for a constant [x]: the datum is written to the storage
    of the scalar, as [Value_assign] does to a destination with
    storage. *)
Definition Scalar_set (s : Value) (x : Z) : M unit :=
  match _data s with
  | Some p => store_cell p x
  | None => fault
  end.

(** Modelled from the spec: [Scalar::operator+=(Scalar)], computed in
    place. *)
Definition Scalar_add_assign (this s : Value) : M unit :=
  if negb (bool_decide (_type s = _type this)) then throw typeMismatch
  else
    let* a := Scalar_get this in
    let* b := Scalar_get s in
    Scalar_set this (a + b).

(** *** Matrix.cpp *)

Record Matrix : Set := { _value : Value }.

(** [Matrix::Matrix() = default] *)
Definition Matrix_default : Matrix := {| _value := Value_default |}.

(** [Matrix::Matrix(Value value)]; the three tests are evaluated left to
    right and the layout is read only of a constrained value. *)
Definition Matrix_ctor (value : Value) : outcome Matrix :=
  if negb (IsDefined value) then Throw invalidArgument
  else if negb (IsConstrained value) then Throw invalidArgument
  else
    let! layout := GetLayout value in
    if negb (NumDimensions layout =? 2)%nat then Throw invalidArgument
    else Ok {| _value := value |}.

(** Modelled from the spec: [Vector::Vector(Value)] (Vector.cpp is not
    part of the sources), the one-dimensional counterpart of
    [Matrix_ctor]. *)
Record Vector : Set := { _vector_value : Value }.

Definition Vector_ctor (value : Value) : outcome Vector :=
  if negb (IsDefined value) then Throw invalidArgument
  else if negb (IsConstrained value) then Throw invalidArgument
  else
    let! layout := GetLayout value in
    if negb (NumDimensions layout =? 1)%nat then Throw invalidArgument
    else Ok {| _vector_value := value |}.

(** [Scalar Matrix::operator()(Scalar rowIndex, Scalar columnIndex)] *)
Definition Matrix_at (this : Matrix) (rowIndex columnIndex : Z) : outcome Value :=
  let! indexedValue := Offset (_value this) [rowIndex; columnIndex] in
  Ok (SetLayout indexedValue ScalarLayout).

(** [Value Matrix::GetValue() const] *)
Definition GetValue (this : Matrix) : Value := _value this.

(** [Matrix Matrix::SubMatrix(Scalar row, Scalar column, int numRows, int numColumns) const].
    The second comparison is evaluated only when the first is false;
    [return indexedValue] goes through [Matrix_ctor]. *)
Definition SubMatrix (this : Matrix) (row column : Z) (numRows numColumns : Z)
  : outcome Matrix :=
  let! currentLayout := GetLayout (_value this) in
  let! activeRows := layout_query (GetLogicalDimensionActiveSize currentLayout 0) in
  let! outOfRange :=
    (if numRows >? activeRows then Ok true
     else
       let! activeColumns := layout_query (GetLogicalDimensionActiveSize currentLayout 1) in
       Ok (numColumns >? activeColumns)) in
  if (outOfRange : bool) then Throw indexOutOfRange
  else
    let! indexedValue := Offset (_value this) [row; column] in
    let dimensionOrder := GetLogicalDimensionOrder currentLayout in
    let logicalDimensions := [numRows; numColumns] in
    let! physicalDimensions :=
      layout_query
        (mapM (fun index : nat =>
                 match dimensionOrder !! index with
                 | Some d => logicalDimensions !! d
                 | None => None
                 end) [0%nat; 1%nat]) in
    let! newLayout :=
      MemoryLayout_ctor physicalDimensions (GetExtent currentLayout) [0; 0] dimensionOrder in
    Matrix_ctor (SetLayout indexedValue newLayout).

(** [Matrix Matrix::Copy() const] *)
Definition Copy (this : Matrix) : M Matrix :=
  let* layout := lift (GetLayout (_value this)) in
  let* newValue := Allocate (GetBaseType (_value this)) layout in
  let* newValue := Value_assign newValue (_value this) in
  lift (Matrix_ctor newValue).

(** [Vector Matrix::Row(Scalar index) const] *)
Definition Row (this : Matrix) (index : Z) : outcome Vector :=
  let! indexedValue := Offset (_value this) [index; 0] in
  let! currentLayout := GetLayout (_value this) in
  let! dimension := layout_query (GetPhysicalDimension currentLayout 0) in
  Vector_ctor (SetLayout indexedValue (GetSliceLayout currentLayout dimension)).

(** [Vector Matrix::Column(Scalar index) const] *)
Definition Column (this : Matrix) (index : Z) : outcome Vector :=
  let! indexedValue := Offset (_value this) [0; index] in
  let! currentLayout := GetLayout (_value this) in
  let! dimension := layout_query (GetPhysicalDimension currentLayout 1) in
  Vector_ctor (SetLayout indexedValue (GetSliceLayout currentLayout dimension)).

(** [size_t Matrix::Rows() const] *)
Definition Rows (this : Matrix) : outcome Z :=
  let! layout := GetLayout (_value this) in
  let! n := layout_query (GetLogicalDimensionActiveSize layout 0) in
  Ok (to_size_t n).

(** [size_t Matrix::Columns() const] *)
Definition Columns (this : Matrix) : outcome Z :=
  let! layout := GetLayout (_value this) in
  let! n := layout_query (GetLogicalDimensionActiveSize layout 1) in
  Ok (to_size_t n).

(** [ValueType Matrix::Type() const] *)
Definition Type_ (this : Matrix) : ValueType := GetBaseType (_value this).

(** Modelled from the spec: [For(Matrix, fn)] (Matrix.h is not part of
    the sources): [fn] on every pair of logical coordinates of the
    matrix, in row-major logical order. *)
Definition For (matrix : Matrix) (fn : Z -> Z -> M unit) : M unit :=
  let* layout := lift (GetLayout (_value matrix)) in
  if negb (NumDimensions layout =? 2)%nat then throw invalidArgument
  else
    let* rows := lift (layout_query (GetLogicalDimensionActiveSize layout 0)) in
    let* columns := lift (layout_query (GetLogicalDimensionActiveSize layout 1)) in
    for_each (range rows)
      (fun row => for_each (range columns) (fun column => fn row column)).

(** The test [m.Rows() != Rows() && m.Columns() != Columns()] shared by
    [operator+=] and [operator-=]; the columns are compared only when
    the rows differ. *)
Definition sizes_mismatch (this m : Matrix) : outcome bool :=
  let! mRows := Rows m in
  let! rows := Rows this in
  if negb (mRows =? rows)
  then
    let! mColumns := Columns m in
    let! columns := Columns this in
    Ok (negb (mColumns =? columns))
  else Ok false.

(** [Matrix& Matrix::operator+=(Matrix m)] *)
Definition Matrix_add_assign (this m : Matrix) : M unit :=
  let* mismatch := lift (sizes_mismatch this m) in
  if (mismatch : bool) then throw sizeMismatch
  else if negb (bool_decide (Type_ m = Type_ this)) then throw typeMismatch
  else
    For m (fun row column =>
             let* dst := lift (Matrix_at this row column) in
             let* src := lift (Matrix_at m row column) in
             Scalar_add_assign dst src).

(** Reading and writing one element through a matrix view:
    [x = m(row, column)] and [m(row, column) = x]. *)
Definition Matrix_get (this : Matrix) (row column : Z) : M Z :=
  let* s := lift (Matrix_at this row column) in Scalar_get s.

Definition Matrix_set (this : Matrix) (row column : Z) (x : Z) : M unit :=
  let* s := lift (Matrix_at this row column) in Scalar_set s x.

(** Modelled from the spec: [Scalar Vector::operator()(Scalar index)]
    (Vector.cpp is not part of the sources), the one-dimensional
    counterpart of [Matrix_at]. *)
Definition Vector_at (this : Vector) (index : Z) : outcome Value :=
  let! indexedValue := Offset (_vector_value this) [index] in
  Ok (SetLayout indexedValue ScalarLayout).

(** Reading and writing one element through a vector view:
    [x = v(index)] and [v(index) = x]. *)
Definition Vector_get (this : Vector) (index : Z) : M Z :=
  let* s := lift (Vector_at this index) in Scalar_get s.

Definition Vector_set (this : Vector) (index : Z) (x : Z) : M unit :=
  let* s := lift (Vector_at this index) in Scalar_set s x.


(** The invariant of a matrix view: what [Matrix_ctor] checks, over a
    well-formed layout. *)
Definition Matrix_wf (m : Matrix) : bool :=
  IsDefined (_value m)
  && match _layout (_value m) with
     | Some l => (NumDimensions l =? 2)%nat && layout_wf l
     | None => false
     end.

(** The active size of a logical dimension of a matrix (0 when the
    layout has no such dimension). *)
Definition active_size (m : Matrix) (dimension : nat) : Z :=
  match _layout (_value m) with
  | Some l => default 0 (GetLogicalDimensionActiveSize l dimension)
  | None => 0
  end.



(** The pointer of the entry at logical coordinates [(row, column)]. *)
Definition entry_pointer (m : Matrix) (row column : Z) : option Pointer :=
  match Matrix_at m row column with
  | Ok s => _data s
  | _ => None
  end.

(** A row-major layout without padding, and a matrix with such a layout
    that starts at the first cell of a block. *)
Definition rowMajor (rows columns : Z) : MemoryLayout :=
  {| size := [rows; columns]; extent := [rows; columns]; offset := [0; 0];
     increment := [columns; 1]; dimensionOrder := [0%nat; 1%nat] |}.

Definition hostMatrix (b : nat) (type : ValueType) (rows columns : Z) : Matrix :=
  {| _value := {| _data := Some {| block := b; cell := 0 |};
                  _type := type;
                  _layout := Some (rowMajor rows columns) |} |}.

End Value.

(* ===================================================================== *)
(** ** The emitters library: IRLoopEmitter.h *)
(* ===================================================================== *)

Module Emitters.

(** *** The function under construction *)

Abbreviation BlockId := nat.
Abbreviation VariableId := nat.

(** Modelled from the spec: the comparisons of [TypedComparison]
    (EmitterTypes.h is not part of the sources) that loops use. *)
Inductive TypedComparison : Set :=
| equals | notEquals | lessThan | lessThanOrEquals | greaterThan | greaterThanOrEquals.

#[global] Instance TypedComparison_eq_dec : EqDecision TypedComparison.
Proof. solve_decision. Defined.

(** A value of the emitted code: a literal or the load of a variable. *)
Inductive Operand : Set :=
| Literal (z : Z)
| LoadVariable (v : VariableId).

#[global] Instance Operand_eq_dec : EqDecision Operand.
Proof. solve_decision. Defined.

(** Modelled from the spec: the instructions the loop emitters write
    through [IRFunctionEmitter] (the LLVM builder is not part of the
    sources).  [Use] stands for an instruction of a loop body that
    consumes a value. *)
Inductive Instruction : Set :=
| Alloca (v : VariableId)
| Store (v : VariableId) (x : Operand)
| OperationAndUpdate (v : VariableId) (x : Operand)
| Use (x : Operand)
| Branch (target : BlockId)
| ConditionalBranch (comparison : TypedComparison) (a b : Operand)
                    (thenBlock elseBlock : BlockId).

#[global] Instance Instruction_eq_dec : EqDecision Instruction.
Proof. solve_decision. Defined.

(** Modelled from the spec: [IRFunctionEmitter], as far as loops use it:
    the basic blocks of the function in creation order, the block that
    receives the next instruction, and the number of variables. *)
Record IRFunctionEmitter : Set :=
  { blocks : list (list Instruction);
    currentBlock : BlockId;
    variables : nat }.

(** A function with its entry block. *)
Definition BeginFunction : IRFunctionEmitter :=
  {| blocks := [[]]; currentBlock := 0%nat; variables := 0%nat |}.

(** [Block(name)]: a new, empty block at the end of the function. *)
Definition Block (f : IRFunctionEmitter) : BlockId * IRFunctionEmitter :=
  (length (blocks f),
   {| blocks := blocks f ++ [[]];
      currentBlock := currentBlock f;
      variables := variables f |}).

Definition SetCurrentBlock (f : IRFunctionEmitter) (b : BlockId) : IRFunctionEmitter :=
  {| blocks := blocks f; currentBlock := b; variables := variables f |}.

(** An instruction goes to the end of the current block. *)
Definition emit (f : IRFunctionEmitter) (i : Instruction) : IRFunctionEmitter :=
  {| blocks := alter (fun b => b ++ [i]) (currentBlock f) (blocks f);
     currentBlock := currentBlock f;
     variables := variables f |}.

(** [Variable(type)] *)
Definition Variable_ (f : IRFunctionEmitter) : VariableId * IRFunctionEmitter :=
  let v := variables f in
  (v, emit {| blocks := blocks f; currentBlock := currentBlock f;
              variables := S v |} (Alloca v)).

(** *** IRForLoopEmitter *)

Module IRForLoopEmitter.

(** The members of the class.  The block pointers are null until
    [CreateBlocks] has run, which is the first step of every [Begin]. *)
Record IRForLoopEmitter : Set :=
  { _pInitializationBlock : BlockId;
    _pConditionBlock : BlockId;
    _pBodyBlock : BlockId;
    _pIncrementBlock : BlockId;
    _pAfterBlock : BlockId;
    _pIterationVariable : option VariableId }.

Definition GetBodyBlock (loop : IRForLoopEmitter) : BlockId := _pBodyBlock loop.
Definition GetIterationVariable (loop : IRForLoopEmitter) : option VariableId :=
  _pIterationVariable loop.

(** [LoadIterationVariable()] *)
Definition LoadIterationVariable (loop : IRForLoopEmitter) : Operand :=
  LoadVariable (default 0%nat (_pIterationVariable loop)).

(** Modelled from the spec: [CreateBlocks] makes the five blocks. *)
Definition CreateBlocks (f : IRFunctionEmitter) : IRForLoopEmitter * IRFunctionEmitter :=
  let '(init, f) := Block f in
  let '(cond, f) := Block f in
  let '(body, f) := Block f in
  let '(incr, f) := Block f in
  let '(after, f) := Block f in
  ({| _pInitializationBlock := init; _pConditionBlock := cond;
      _pBodyBlock := body; _pIncrementBlock := incr; _pAfterBlock := after;
      _pIterationVariable := None |}, f).

(** Modelled from the spec: the code before the loop branches to the
    initialization block, where the iteration variable is made and set
    to the start value. *)
Definition EmitIterationVariable (loop : IRForLoopEmitter) (f : IRFunctionEmitter)
           (pStartValue : Operand) : IRForLoopEmitter * IRFunctionEmitter :=
  let f := emit f (Branch (_pInitializationBlock loop)) in
  let f := SetCurrentBlock f (_pInitializationBlock loop) in
  let '(i, f) := Variable_ f in
  let f := emit f (Store i pStartValue) in
  ({| _pInitializationBlock := _pInitializationBlock loop;
      _pConditionBlock := _pConditionBlock loop;
      _pBodyBlock := _pBodyBlock loop;
      _pIncrementBlock := _pIncrementBlock loop;
      _pAfterBlock := _pAfterBlock loop;
      _pIterationVariable := Some i |}, f).

(** Modelled from the spec: initialization branches to the condition
    block, which branches on the test to the body or to the block
    after the loop. *)
Definition EmitCondition (loop : IRForLoopEmitter) (f : IRFunctionEmitter)
           (type : TypedComparison) (pTestValue : Operand) : IRFunctionEmitter :=
  let f := emit f (Branch (_pConditionBlock loop)) in
  let f := SetCurrentBlock f (_pConditionBlock loop) in
  emit f (ConditionalBranch type (LoadIterationVariable loop) pTestValue
                            (_pBodyBlock loop) (_pAfterBlock loop)).

(** Modelled from the spec: the increment block adds the step to the
    iteration variable and branches back to the condition. *)
Definition EmitIncrement (loop : IRForLoopEmitter) (f : IRFunctionEmitter)
           (pIncrementValue : Operand) : IRFunctionEmitter :=
  let f := SetCurrentBlock f (_pIncrementBlock loop) in
  let f := emit f (OperationAndUpdate (default 0%nat (_pIterationVariable loop))
                                      pIncrementValue) in
  emit f (Branch (_pConditionBlock loop)).

(** Modelled from the spec: the caller writes the body next. *)
Definition PrepareBody (loop : IRForLoopEmitter) (f : IRFunctionEmitter)
  : IRFunctionEmitter :=
  SetCurrentBlock f (_pBodyBlock loop).

(** [Begin(LLVMValue iStartAt, LLVMValue iMaxValue, LLVMValue stepSize)] *)
Definition BeginValues (f : IRFunctionEmitter) (iStartAt iMaxValue stepSize : Operand)
  : IRForLoopEmitter * IRFunctionEmitter :=
  let '(loop, f) := CreateBlocks f in
  let '(loop, f) := EmitIterationVariable loop f iStartAt in
  let f := EmitCondition loop f lessThan iMaxValue in
  let f := EmitIncrement loop f stepSize in
  (loop, PrepareBody loop f).

(** [Begin(int iStartAt, int iMaxValue, int stepSize)] *)
Definition Begin (f : IRFunctionEmitter) (iStartAt iMaxValue stepSize : Z)
  : IRForLoopEmitter * IRFunctionEmitter :=
  BeginValues f (Literal iStartAt) (Literal iMaxValue) (Literal stepSize).

(** [Begin(int repeatCount)] *)
Definition BeginRepeat (f : IRFunctionEmitter) (repeatCount : Z)
  : IRForLoopEmitter * IRFunctionEmitter :=
  Begin f 0 repeatCount 1.

(** Modelled from the spec: [End()]: the body branches to the increment
    block, and what follows the loop is written to the block after
    it. *)
Definition End (loop : IRForLoopEmitter) (f : IRFunctionEmitter) : IRFunctionEmitter :=
  let f := emit f (Branch (_pIncrementBlock loop)) in
  SetCurrentBlock f (_pAfterBlock loop).

End IRForLoopEmitter.

(** *** IRWhileLoopEmitter *)

Module IRWhileLoopEmitter.

(** The members of the class: there is no increment block. *)
Record IRWhileLoopEmitter : Set :=
  { _pInitializationBlock : BlockId;
    _pConditionBlock : BlockId;
    _pBodyBlock : BlockId;
    _pAfterBlock : BlockId }.

Definition GetBodyBlock (loop : IRWhileLoopEmitter) : BlockId := _pBodyBlock loop.

(** Modelled from the spec: [CreateBlocks] makes the four blocks. *)
Definition CreateBlocks (f : IRFunctionEmitter) : IRWhileLoopEmitter * IRFunctionEmitter :=
  let '(init, f) := Block f in
  let '(cond, f) := Block f in
  let '(body, f) := Block f in
  let '(after, f) := Block f in
  ({| _pInitializationBlock := init; _pConditionBlock := cond;
      _pBodyBlock := body; _pAfterBlock := after |}, f).

(** Modelled from the spec: the code before the loop branches to the
    initialization block. *)
Definition EmitInitialization (loop : IRWhileLoopEmitter) (f : IRFunctionEmitter)
  : IRFunctionEmitter :=
  let f := emit f (Branch (_pInitializationBlock loop)) in
  SetCurrentBlock f (_pInitializationBlock loop).

(** Modelled from the spec: [EmitCondition(pTestValuePointer)]: the
    condition block loads the test value and branches to the body when
    it is true, to the block after the loop when it is not. *)
Definition EmitCondition (loop : IRWhileLoopEmitter) (f : IRFunctionEmitter)
           (pTestValuePointer : VariableId) : IRFunctionEmitter :=
  let f := emit f (Branch (_pConditionBlock loop)) in
  let f := SetCurrentBlock f (_pConditionBlock loop) in
  emit f (ConditionalBranch notEquals (LoadVariable pTestValuePointer) (Literal 0)
                            (_pBodyBlock loop) (_pAfterBlock loop)).

Definition PrepareBody (loop : IRWhileLoopEmitter) (f : IRFunctionEmitter)
  : IRFunctionEmitter :=
  SetCurrentBlock f (_pBodyBlock loop).

(** [Begin(LLVMValue pTestValuePointer)] *)
Definition Begin (f : IRFunctionEmitter) (pTestValuePointer : VariableId)
  : IRWhileLoopEmitter * IRFunctionEmitter :=
  let '(loop, f) := CreateBlocks f in
  let f := EmitInitialization loop f in
  let f := EmitCondition loop f pTestValuePointer in
  (loop, PrepareBody loop f).

(** The condition of the other overload is code: a function that emits
    code and returns the test value. *)
Abbreviation Condition := (IRFunctionEmitter -> Operand * IRFunctionEmitter).

(** Where the code of a condition is written: the code before branches
    to the condition block, which becomes the current block. *)
Definition EnterCondition (loop : IRWhileLoopEmitter) (f : IRFunctionEmitter)
  : IRFunctionEmitter :=
  let f := emit f (Branch (_pConditionBlock loop)) in
  SetCurrentBlock f (_pConditionBlock loop).

(** Modelled from the spec: [EmitCondition(condition)]: the code of the
    condition is written from the condition block on, and where it ends
    the loop branches on its value, to the body when it is true, to the
    block after the loop when it is not. *)
Definition EmitConditionLambda (loop : IRWhileLoopEmitter) (f : IRFunctionEmitter)
           (condition : Condition) : IRFunctionEmitter :=
  let f := EnterCondition loop f in
  let '(test, f) := condition f in
  emit f (ConditionalBranch notEquals test (Literal 0)
                            (_pBodyBlock loop) (_pAfterBlock loop)).

(** [Begin(std::function<LLVMValue(IRFunctionEmitter&)> condition)] *)
Definition BeginLambda (f : IRFunctionEmitter) (condition : Condition)
  : IRWhileLoopEmitter * IRFunctionEmitter :=
  let '(loop, f) := CreateBlocks f in
  let f := EmitInitialization loop f in
  let f := EmitConditionLambda loop f condition in
  (loop, PrepareBody loop f).

(** Modelled from the spec: [End()]: the end of the body branches back
    to the condition. *)
Definition End (loop : IRWhileLoopEmitter) (f : IRFunctionEmitter) : IRFunctionEmitter :=
  let f := emit f (Branch (_pConditionBlock loop)) in
  SetCurrentBlock f (_pAfterBlock loop).

End IRWhileLoopEmitter.

(** *** The control flow graph of a function *)

(** The blocks the last instruction of a block branches to. *)
Definition successors (f : IRFunctionEmitter) (b : BlockId) : list BlockId :=
  match blocks f !! b with
  | Some instructions =>
      match list.last instructions with
      | Some (Branch target) => [target]
      | Some (ConditionalBranch _ _ _ thenBlock elseBlock) => [thenBlock; elseBlock]
      | _ => []
      end
  | None => []
  end.

(** What code written into a function may do to it, as the code of a
    loop body or of a condition does: [f2] is [f1] after code that
    writes to the current block, makes blocks, and goes on in blocks it
    has made.  No block that existed is changed but the one that was
    current, and the code ends in that block or in one it has made. *)
Definition writes (f1 f2 : IRFunctionEmitter) : bool :=
  let n := length (blocks f1) in
  (n <=? length (blocks f2))%nat
  && forallb (fun b => (b =? currentBlock f1)%nat
                       || bool_decide (blocks f2 !! b = blocks f1 !! b))
             (seq 0 n)
  && ((currentBlock f2 =? currentBlock f1)%nat || (n <=? currentBlock f2)%nat)
  && (currentBlock f2 <? length (blocks f2))%nat.

(** *** Running the emitted code *)

(** 32-bit two's complement. *)
Definition wrap32 (z : Z) : Z := (z + 2 ^ 31) mod 2 ^ 32 - 2 ^ 31.

(** The state of a run: the variables, the values consumed by [Use] so
    far, and the blocks entered so far, each in order. *)
Record Machine : Type :=
  { env : VariableId -> Z;
    used : list Z;
    entered : list BlockId }.

Definition eval (m : Machine) (x : Operand) : Z :=
  match x with
  | Literal z => z
  | LoadVariable v => env m v
  end.

Definition set (m : Machine) (v : VariableId) (z : Z) : Machine :=
  {| env := fun v' => if (v' =? v)%nat then z else env m v';
     used := used m; entered := entered m |}.

Definition compare (c : TypedComparison) (a b : Z) : bool :=
  match c with
  | equals => a =? b
  | notEquals => negb (a =? b)
  | lessThan => a <? b
  | lessThanOrEquals => a <=? b
  | greaterThan => b <? a
  | greaterThanOrEquals => b <=? a
  end.

Definition enter (m : Machine) (b : BlockId) : Machine :=
  {| env := env m; used := used m; entered := entered m ++ [b] |}.

(** How a run ends: at the end of a block that has no branch yet (where
    the code after it will be written), out of fuel, or at a branch to a
    block that does not exist. *)
Inductive Run : Type :=
| Finished (at_block : BlockId) (m : Machine)
| OutOfFuel
| Stuck.

(** Run the instructions [rest] of block [b], one instruction per unit of
    fuel. *)
Fixpoint run (fuel : nat) (f : IRFunctionEmitter) (b : BlockId)
         (rest : list Instruction) (m : Machine) : Run :=
  match rest with
  | [] => Finished b m
  | i :: rest' =>
      match fuel with
      | O => OutOfFuel
      | S fuel' =>
          let jump target m :=
            match blocks f !! target with
            | Some instructions => run fuel' f target instructions (enter m target)
            | None => Stuck
            end in
          match i with
          | Alloca v => run fuel' f b rest' (set m v 0)
          | Store v x => run fuel' f b rest' (set m v (eval m x))
          | OperationAndUpdate v x =>
              run fuel' f b rest' (set m v (wrap32 (env m v + eval m x)))
          | Use x =>
              run fuel' f b rest'
                  {| env := env m; used := used m ++ [eval m x]; entered := entered m |}
          | Branch target => jump target m
          | ConditionalBranch c x y thenBlock elseBlock =>
              jump (if compare c (eval m x) (eval m y) then thenBlock else elseBlock) m
          end
      end
  end.

(** Run a function from its first block. *)
Definition execute (fuel : nat) (f : IRFunctionEmitter) : Run :=
  match blocks f !! 0%nat with
  | Some instructions =>
      run fuel f 0%nat instructions
          {| env := fun _ => 0; used := []; entered := [0%nat] |}
  | None => Stuck
  end.

Definition visits (r : Run) (b : BlockId) : nat :=
  match r with
  | Finished _ m => length (filter (fun b' => b' = b) (entered m))
  | _ => 0%nat
  end.

Definition used_values (r : Run) : list Z :=
  match r with
  | Finished _ m => used m
  | _ => []
  end.

Definition finished_at (r : Run) : option BlockId :=
  match r with
  | Finished b _ => Some b
  | _ => None
  end.

(** The function that consists of one for loop whose body uses the
    iteration variable. *)
Definition for_program (iStartAt iMaxValue stepSize : Z) : IRFunctionEmitter :=
  let begun := IRForLoopEmitter.Begin BeginFunction iStartAt iMaxValue stepSize in
  IRForLoopEmitter.End begun.1
    (emit begun.2 (Use (IRForLoopEmitter.LoadIterationVariable begun.1))).

(** [n] iteration values from [x] on. *)
Fixpoint iteration_values (n : nat) (x stepSize : Z) : list Z :=
  match n with
  | O => []
  | S n' => x :: iteration_values n' (x + stepSize) stepSize
  end.

End Emitters.

(* ===================================================================== *)
(** ** StlContainerIterator.h: the iterators with [Get] *)
(* ===================================================================== *)

Module StlContainerIteratorGet.
Import Utilities StlContainerIterator.

(** [StlContainerIterator] and [StlContainerReferenceIterator] add [Get]
    to the base class.  The two positions refer to a container, here the
    list of its elements; a position is an index into it. *)
Record StlContainerIterator (ValueType : Type) : Type :=
  { iterator : StlContainerIteratorBase;
    elements : list ValueType }.

Arguments iterator {ValueType} _.
Arguments elements {ValueType} _.

(** [ValueType Get() const { return *_current; }]: reading a position
    outside the container has no value. *)
Definition Get {ValueType} (it : StlContainerIterator ValueType) : option ValueType :=
  if 0 <=? _current (iterator it)
  then elements it !! Z.to_nat (_current (iterator it))
  else None.

(** [Next()], inherited. *)
Definition Advance {ValueType} (it : StlContainerIterator ValueType)
  : StlContainerIterator ValueType :=
  {| iterator := Next (iterator it); elements := elements it |}.

(** [MakeStlContainerIterator(begin, end)] *)
Definition MakeStlContainerIteratorRange {ValueType} (container : list ValueType)
           (begin end_ : Z) : StlContainerIterator ValueType :=
  {| iterator := MakeStlContainerIterator begin end_; elements := container |}.

(** [MakeStlContainerIterator(container)]: from [container.begin()] to
    [container.end()]. *)
Definition MakeStlContainerIteratorOver {ValueType} (container : list ValueType)
  : StlContainerIterator ValueType :=
  MakeStlContainerIteratorRange container 0 (Z.of_nat (length container)).

(** [n] calls of [Next] in a row. *)
Definition AdvanceN {ValueType} (n : nat) (it : StlContainerIterator ValueType)
  : StlContainerIterator ValueType :=
  Nat.iter n Advance it.

(** The loop of a client, as the utilities test has it for its iterator
    adapter:
    [while (it.IsValid()) { ... it.Get() ...; it.Next(); index++; }],
    collecting what [Get] returns and counting; [None] when it reads
    outside the container or the fuel runs out. *)
Fixpoint iterate {ValueType} (fuel : nat) (it : StlContainerIterator ValueType)
         (seen : list ValueType) (index : nat) : option (list ValueType * nat) :=
  if IsValid (iterator it)
  then match fuel with
       | O => None
       | S fuel' =>
           match Get it with
           | Some x => iterate fuel' (Advance it) (seen ++ [x]) (S index)
           | None => None
           end
       end
  else Some (seen, index).

End StlContainerIteratorGet.

(* ===================================================================== *)
(** ** NeuralLayersInterface.h: layer types and classes *)
(* ===================================================================== *)

Module LayerFamilies.
Import NeuralLayers.

(** The class whose [GetLayerType] override returns a layer type. *)
Definition classOf (t : LayerType) : LayerClass :=
  match t with
  | activation => ActivationLayer
  | batchNormalization => BatchNormalizationLayer
  | bias => BiasLayer
  | binaryConvolution => BinaryConvolutionalLayer
  | convolution => ConvolutionalLayer
  | fullyConnected => FullyConnectedLayer
  | pooling => PoolingLayer
  | region => RegionDetectionLayer
  | softmax => SoftmaxLayer
  | scaling => ScalingLayer
  end.

(** [T] is [B] or derives from it. *)
Definition derives_from (T B : LayerClass) : bool := bool_decide (B ∈ bases T).

End LayerFamilies.

(* ===================================================================== *)
(** ** The compiler library: IRFunctionEmitter.tcc *)
(* ===================================================================== *)

Module Compiler.
Import Utilities Value.

(** The memory operations the three templates emit, with the two
    pointers in the order the code passes them and the size in bytes. *)
Inductive MemoryOperation : Set :=
| EmitMemMove (pSrc pDest : Pointer) (byteCount : Z)
| EmitMemCopy (pSrc pDest : Pointer) (byteCount : Z).

(** [int byteCount = count * sizeof(T)]: the product is computed in
    [size_t] and narrowed to [int]. *)
Definition byteCount (count sizeofT : Z) : Z :=
  Emitters.wrap32 (to_size_t (to_size_t count * sizeofT)).

(** Modelled from the spec: [PtrOffset(pPtr, Literal(offset))]
    (IRFunctionEmitter.h is not part of the sources): the pointer
    [offset] elements further, a null pointer having none. *)
Definition PtrOffset (pPtr : option Pointer) (offset : Z) : outcome Pointer :=
  match pPtr with
  | Some p => Ok (advance p offset)
  | None => Fault
  end.

(** A failed [assert]. *)
Definition assert (b : bool) : outcome unit := if b then Ok tt else Fault.

(** [template<typename T> void IRFunctionEmitter::MemMove(pPtr, fromOffset, destOffset, count)];
    the result is what is emitted. *)
Definition MemMove (sizeofT : Z) (pPtr : option Pointer) (fromOffset destOffset count : Z)
  : outcome (list MemoryOperation) :=
  let! _ := assert (bool_decide (is_Some pPtr)) in
  let! pSrc := PtrOffset pPtr fromOffset in
  let! pDest := PtrOffset pPtr destOffset in
  Ok [EmitMemMove pSrc pDest (byteCount count sizeofT)].

(** [template<typename T> void IRFunctionEmitter::MemCopy(pPtrSrc, srcOffset, pPtrDest, destOffset, count)] *)
Definition MemCopy (sizeofT : Z) (pPtrSrc : option Pointer) (srcOffset : Z)
           (pPtrDest : option Pointer) (destOffset count : Z)
  : outcome (list MemoryOperation) :=
  let! pSrc := PtrOffset pPtrSrc srcOffset in
  let! pDest := PtrOffset pPtrDest destOffset in
  Ok [EmitMemCopy pSrc pDest (byteCount count sizeofT)].

(** [template<typename T> void IRFunctionEmitter::ShiftAndUpdate(pBuffer, bufferCount, shiftCount, pNewData, pShiftedData)] *)
Definition ShiftAndUpdate (sizeofT : Z) (pBuffer : option Pointer)
           (bufferCount shiftCount : Z) (pNewData pShiftedData : option Pointer)
  : outcome (list MemoryOperation) :=
  let! _ := assert (bool_decide (is_Some pBuffer)) in
  let! _ := assert (shiftCount <=? bufferCount) in
  let! saved :=
    (if bool_decide (is_Some pShiftedData)
     then MemCopy sizeofT pBuffer 0 pShiftedData 0 shiftCount
     else Ok []) in
  let! moved :=
    (if shiftCount <? bufferCount
     then MemMove sizeofT pBuffer shiftCount 0 (Emitters.wrap32 (bufferCount - shiftCount))
     else Ok []) in
  let! updated :=
    MemCopy sizeofT pNewData 0 pBuffer (Emitters.wrap32 (bufferCount - shiftCount)) shiftCount in
  Ok (saved ++ moved ++ updated).

(** *** What the emitted operations do

    Modelled from the spec: the memory intrinsics behind [MemMove] and
    [MemCopy], on a heap of elements of [sizeofT] bytes each. *)

Definition read_range (h : Heap) (p : Pointer) (n : nat) : option (list Z) :=
  mapM (fun i : nat => load h (advance p (Z.of_nat i))) (seq 0 n).

Fixpoint write_range (h : Heap) (p : Pointer) (values : list Z) : option Heap :=
  match values with
  | [] => Some h
  | x :: values' =>
      match store h p x with
      | Some h' => write_range h' (advance p 1) values'
      | None => None
      end
  end.

(** Two ranges of [n] elements overlap. *)
Definition overlap (p q : Pointer) (n : Z) : bool :=
  bool_decide (block p = block q) && (cell p <? cell q + n) && (cell q <? cell p + n).

(** The number of elements in [bytes] bytes, when it is a whole number
    of elements. *)
Definition element_count (sizeofT bytes : Z) : option nat :=
  if (0 <? sizeofT) && (0 <=? bytes) && (bytes mod sizeofT =? 0)
  then Some (Z.to_nat (bytes / sizeofT))
  else None.

(** [memmove] reads the whole source before it writes; [memcpy] is
    undefined on overlapping ranges. *)
Definition run_operation (sizeofT : Z) (h : Heap) (op : MemoryOperation) : outcome Heap :=
  let move pSrc pDest bytes :=
    match element_count sizeofT bytes with
    | Some n =>
        match read_range h pSrc n with
        | Some values =>
            match write_range h pDest values with
            | Some h' => Ok h'
            | None => Fault
            end
        | None => Fault
        end
    | None => Fault
    end in
  match op with
  | EmitMemMove pSrc pDest bytes => move pSrc pDest bytes
  | EmitMemCopy pSrc pDest bytes =>
      match element_count sizeofT bytes with
      | Some n => if overlap pSrc pDest (Z.of_nat n) then Fault else move pSrc pDest bytes
      | None => Fault
      end
  end.

Fixpoint run_operations (sizeofT : Z) (h : Heap) (ops : list MemoryOperation) : outcome Heap :=
  match ops with
  | [] => Ok h
  | op :: ops' =>
      match run_operation sizeofT h op with
      | Ok h' => run_operations sizeofT h' ops'
      | Throw e => Throw e
      | Fault => Fault
      end
  end.

(** The operations of a list that are a [MemMove]. *)
Definition is_move (op : MemoryOperation) : bool :=
  match op with
  | EmitMemMove _ _ _ => true
  | EmitMemCopy _ _ _ => false
  end.

(** [n] elements from [p] on are allocated. *)
Definition allocated (h : Heap) (p : Pointer) (n : Z) : bool :=
  forallb (fun i => bool_decide (is_Some (load h (advance p i)))) (range n).

(** [n] elements were transferred from [src] in [h] to [dest] in [h'],
    and nothing else differs. *)
Definition transferred (h h' : Heap) (src dest : Pointer) (n : Z) : Prop :=
  (forall i, 0 <= i < n -> load h' (advance dest i) = load h (advance src i)) /\
  (forall q, ~ (block q = block dest /\ cell dest <= cell q < cell dest + n) ->
             load h' q = load h q).

End Compiler.

(* ===================================================================== *)
(** ** Matrix.cpp: the other compound assignments *)
(* ===================================================================== *)

Module MatrixOperators.
Import Utilities Value.

(** Modelled from the spec: the compound assignments of [Scalar]
    ([+=], [-=], [*=], [/=]), computed in place; [op] is the arithmetic of
    the element type, which no property below depends on.
    [Scalar_add_assign] is the case of addition. *)
Definition Scalar_compound_assign (op : Z -> Z -> Z) (this s : Value) : M unit :=
  if negb (bool_decide (_type s = _type this)) then throw typeMismatch
  else
    let* a := Scalar_get this in
    let* b := Scalar_get s in
    Scalar_set this (op a b).

(** [Matrix& Matrix::operator+=(Matrix m)] and
    [Matrix& Matrix::operator-=(Matrix m)], which differ in the compound
    assignment of the entries only. *)
Definition Matrix_compound_assign (op : Z -> Z -> Z) (this m : Matrix) : M unit :=
  let* mismatch := lift (sizes_mismatch this m) in
  if (mismatch : bool) then throw sizeMismatch
  else if negb (bool_decide (Type_ m = Type_ this)) then throw typeMismatch
  else
    For m (fun row column =>
             let* dst := lift (Matrix_at this row column) in
             let* src := lift (Matrix_at m row column) in
             Scalar_compound_assign op dst src).

(** [Matrix& Matrix::operator-=(Matrix m)] *)
Definition Matrix_sub_assign (this m : Matrix) : M unit :=
  Matrix_compound_assign Z.sub this m.

(** [Matrix& Matrix::operator+=(Scalar s)], [operator-=(Scalar s)],
    [operator*=(Scalar s)] and [operator/=(Scalar s)], which differ in the
    compound assignment of the entries only. *)
Definition Matrix_scalar_compound_assign (op : Z -> Z -> Z) (this : Matrix) (s : Value)
  : M unit :=
  if negb (bool_decide (_type s = Type_ this)) then throw typeMismatch
  else
    For this (fun row column =>
                let* dst := lift (Matrix_at this row column) in
                Scalar_compound_assign op dst s).

(** The entries of a matrix are allocated in [h]. *)
Definition entries_allocated (h : Heap) (m : Matrix) : bool :=
  forallb (fun row =>
             forallb (fun column =>
                        match entry_pointer m row column with
                        | Some q => bool_decide (is_Some (load h q))
                        | None => false
                        end)
                     (range (active_size m 1)))
          (range (active_size m 0)).

(** The datum of an entry. *)
Definition entry (h : Heap) (m : Matrix) (row column : Z) : option Z :=
  match entry_pointer m row column with
  | Some q => load h q
  | None => None
  end.

(** The coordinates inside the active region of a matrix. *)
Definition in_range (m : Matrix) (row column : Z) : Prop :=
  0 <= row < active_size m 0 /\ 0 <= column < active_size m 1.

(** The heap [hk] is [h] after the entries of [this] selected by [done]
    were updated by [g], a function of the coordinates and the old datum:
    nothing else of the block of [this] (at [p]) and no other block has
    changed. *)
Definition updated (this : Matrix) (p : Pointer) (g : Z -> Z -> Z -> Z) (h : Heap)
  (done : Z -> Z -> bool) (hk : Heap) : Prop :=
  (forall b, b <> block p -> hk !! b = h !! b) /\
  (forall r c, in_range this r c ->
               entry hk this r c
               = if done r c then g r c <$> entry h this r c else entry h this r c) /\
  (forall q, block q = block p ->
             (forall r c, in_range this r c -> entry_pointer this r c <> Some q) ->
             load hk q = load h q).

(** A function of the coordinates that updates the entry there by [g],
    given that the blocks other than that of [this] are as in [h]. *)
Definition updates_entry (this : Matrix) (p : Pointer) (g : Z -> Z -> Z -> Z) (h : Heap)
  (fn : Z -> Z -> M unit) : Prop :=
  forall r c q old hk,
    in_range this r c -> entry_pointer this r c = Some q -> load hk q = Some old ->
    (forall b, b <> block p -> hk !! b = h !! b) ->
    exists hk', fn r c hk = (hk', Ok tt) /\ store hk q (g r c old) = Some hk'.

End MatrixOperators.

(* ===================================================================== *)
(** * Properties *)
(* ===================================================================== *)

Module StlContainerIteratorSpec.
Import Utilities StlContainerIterator.

Lemma Next_invalid it : IsValid it = false -> Next it = it.
Proof. unfold Next. intros ->. reflexivity. Qed.

Lemma NextN_invalid n it : IsValid it = false -> NextN n it = it.
Proof.
  intros Hinv. induction n as [|n IH]; [reflexivity|].
  unfold NextN in *. simpl. rewrite IH. apply Next_invalid, Hinv.
Qed.

Lemma NumItemsLeft_invalid it : IsValid it = false -> NumItemsLeft it = 0.
Proof.
  unfold IsValid, NumItemsLeft, to_size_t. intros H.
  apply negb_false_iff, Z.eqb_eq in H. rewrite H, Z.sub_diag. reflexivity.
Qed.

Lemma Next_in_range it : _current it <= _end it -> _current (Next it) <= _end (Next it).
Proof.
  unfold Next, IsValid. intros H.
  destruct (Z.eqb_spec (_current it) (_end it)); simpl; lia.
Qed.

Lemma Next_end it : _end (Next it) = _end it.
Proof. unfold Next. destruct (IsValid it); reflexivity. Qed.

Lemma NextN_in_range n it :
  _current it <= _end it ->
  _current (NextN n it) <= _end (NextN n it) /\ _end (NextN n it) = _end it.
Proof.
  intros H. induction n as [|n [IH1 IH2]]; [split; [exact H | reflexivity]|].
  unfold NextN in *. simpl. split.
  - apply Next_in_range, IH1.
  - rewrite Next_end. exact IH2.
Qed.

Lemma NumItemsLeft_Next it :
  distance_representable it -> IsValid it = true ->
  NumItemsLeft (Next it) = NumItemsLeft it - 1.
Proof.
  unfold distance_representable, NumItemsLeft, Next, IsValid, to_size_t, size_t_modulus.
  intros Hd Hv. rewrite Hv. simpl.
  apply negb_true_iff, Z.eqb_neq in Hv.
  destruct (Z_lt_le_dec (_end it - _current it) 0) as [Hneg|Hpos].
  - rewrite <- (Z_mod_plus_full (_end it - (_current it + 1)) 1 (2 ^ 64)).
    rewrite <- (Z_mod_plus_full (_end it - _current it) 1 (2 ^ 64)).
    rewrite !Z.mod_small; lia.
  - rewrite !Z.mod_small; lia.
Qed.

(** C10: a [Next] on an exhausted iterator changes nothing, however often
    it is called: the iterator stays invalid with no items left, and a
    position that starts at or before the end never passes it; on a valid
    iterator [Next] takes exactly one off [NumItemsLeft]. *)
Theorem Next_exhausted_and_decrement (it : StlContainerIteratorBase) :
  (IsValid it = false ->
     Next it = it /\
     forall n, NextN n it = it /\
               IsValid (NextN n it) = false /\
               NumItemsLeft (NextN n it) = 0) /\
  (_current it <= _end it ->
     forall n, _current (NextN n it) <= _end it) /\
  (IsValid it = true -> distance_representable it ->
     NumItemsLeft (Next it) = NumItemsLeft it - 1).
Proof.
  split; [|split].
  - intros Hinv. split; [apply Next_invalid, Hinv|].
    intros n. rewrite (NextN_invalid n it Hinv).
    split; [reflexivity|]. split; [exact Hinv|].
    apply NumItemsLeft_invalid, Hinv.
  - intros H n. destruct (NextN_in_range n it H) as [H1 H2]. lia.
  - intros Hv Hd. apply NumItemsLeft_Next; assumption.
Qed.

(** An iterator over a six element vector (as in the iterator test), at
    position 2 and at the end. *)
Lemma Next_exhausted_and_decrement_witness :
  let it := MakeStlContainerIterator 2 6 in
  let done := MakeStlContainerIterator 6 6 in
  (Next done = done /\
   forall n, NextN n done = done /\ IsValid (NextN n done) = false /\
             NumItemsLeft (NextN n done) = 0) /\
  (forall n, _current (NextN n it) <= 6) /\
  NumItemsLeft (Next it) = NumItemsLeft it - 1.
Proof.
  intros it done.
  split; [|split].
  - apply (proj1 (Next_exhausted_and_decrement done)). reflexivity.
  - apply (proj1 (proj2 (Next_exhausted_and_decrement it))). simpl. lia.
  - apply (proj2 (proj2 (Next_exhausted_and_decrement it))).
    + reflexivity.
    + unfold distance_representable. simpl. lia.
Defined.

End StlContainerIteratorSpec.

Module NeuralLayersSpec.
Import Utilities NeuralLayers.

Lemma Is_true_iff T l : Is T l = true <-> T ∈ bases (dynamicClass l).
Proof.
  unfold Is, dynamic_cast. destruct (decide (T ∈ bases (dynamicClass l))); split;
    intros; try done.
Qed.

(** The list of bases is the family relation of the class
    declarations. *)
Lemma bases_is_a (c T : LayerClass) : T ∈ bases c <-> is_a c T.
Proof.
  split.
  - intros Hin. apply (bool_decide_eq_true_2 (T ∈ bases c)) in Hin.
    destruct c, T; try discriminate Hin;
      repeat first [apply is_a_refl | eapply is_a_base; [reflexivity|]].
  - induction 1 as [c|c b T Hbase _ IH].
    + apply list_elem_of_here.
    + apply (bool_decide_eq_true_1 (T ∈ bases c)).
      apply (bool_decide_eq_true_2 (T ∈ bases b)) in IH.
      destruct c; try discriminate Hbase; injection Hbase as <-;
        destruct T; try discriminate IH; reflexivity.
Qed.

(** C9: for every layer and every class [T]: when the layer is of family
    [T] (its dynamic class is [T] or derives from it), [Is<T>] is true and
    [As<T>] returns the layer itself; when it is not, [Is<T>] is false and
    [As<T>] throws [typeMismatch].  There is no third behaviour. *)
Theorem As_safe_downcast (T : LayerClass) (l : LayerObject) :
  (is_a (dynamicClass l) T /\ Is T l = true /\ As T l = Ok l) \/
  (~ is_a (dynamicClass l) T /\ Is T l = false /\ As T l = Throw typeMismatch).
Proof.
  unfold Is, As, dynamic_cast.
  destruct (decide (T ∈ bases (dynamicClass l))) as [Hin|Hout]; [left | right];
    (split; [|split; reflexivity]).
  - by apply bases_is_a.
  - intros His. by apply Hout, bases_is_a.
Qed.

(** A PReLU activation layer is an activation layer and a layer, and not
    a bias layer. *)
Lemma As_safe_downcast_witness :
  let l := {| address := 3; dynamicClass := PReLUActivationLayer |} in
  As PReLUActivationLayer l = Ok l /\
  As ActivationLayer l = Ok l /\
  As Layer l = Ok l /\
  As BiasLayer l = Throw typeMismatch /\
  As LeakyReLUActivationLayer l = Throw typeMismatch.
Proof.
  intros l.
  assert (forall T, T ∈ bases (dynamicClass l) -> As T l = Ok l) as Hyes.
  { intros T HT. destruct (As_safe_downcast T l) as [(_ & _ & H)|(Hn & _)]; [exact H|].
    exfalso. by apply Hn, bases_is_a. }
  assert (forall T, T ∉ bases (dynamicClass l) -> As T l = Throw typeMismatch) as Hno.
  { intros T HT. destruct (As_safe_downcast T l) as [(Hy & _)|(_ & _ & H)]; [|exact H].
    exfalso. by apply HT, bases_is_a. }
  repeat split; first [apply Hyes | apply Hno]; by apply bool_decide_unpack.
Defined.

End NeuralLayersSpec.

Module ValueSpec.
Import Utilities Value.

(** *** Layouts of matrices *)

Lemma fits_2 sz off ext :
  length sz = 2%nat -> fits sz off ext = true ->
  exists s0 s1 o0 o1 e0 e1,
    sz = [s0; s1] /\ off = [o0; o1] /\ ext = [e0; e1] /\
    s0 + o0 <= e0 /\ s1 + o1 <= e1.
Proof.
  destruct sz as [|s0 [|s1 [|? ?]]]; try discriminate. intros _.
  destruct off as [|o0 [|o1 [|? ?]]]; destruct ext as [|e0 [|e1 [|? ?]]];
    simpl; try discriminate;
    try (intros H; rewrite !andb_false_r in H; discriminate).
  rewrite andb_true_r. intros [H0 H1]%andb_true_iff.
  apply Z.leb_le in H0, H1. by exists s0, s1, o0, o1, e0, e1.
Qed.

(** A well-formed two-dimensional layout, spelled out. *)
Lemma layout_wf_2 l :
  NumDimensions l = 2%nat -> layout_wf l = true ->
  exists s0 s1 o0 o1 e0 e1 order,
    l = {| size := [s0; s1]; extent := [e0; e1]; offset := [o0; o1];
           increment := [e1; 1]; dimensionOrder := order |} /\
    (order = [0%nat; 1%nat] \/ order = [1%nat; 0%nat]) /\
    s0 + o0 <= e0 /\ s1 + o1 <= e1 /\ 0 <= o0 /\ 0 <= o1.
Proof.
  unfold NumDimensions, layout_wf. destruct l as [sz ext off inc order]; simpl.
  intros Hlen [[[Hfits Hoff]%andb_true_iff Hinc]%andb_true_iff Hperm]%andb_true_iff.
  apply bool_decide_eq_true in Hinc, Hperm.
  destruct (fits_2 _ _ _ Hlen Hfits) as (s0 & s1 & o0 & o1 & e0 & e1 & -> & -> & -> & H0 & H1).
  simpl in *. rewrite Z.mul_1_r in Hinc. subst inc.
  apply andb_true_iff in Hoff as [Ho0 Ho1%andb_true_iff].
  destruct Ho1 as [Ho1 _]. apply Z.leb_le in Ho0, Ho1.
  exists s0, s1, o0, o1, e0, e1, order. split; [reflexivity|].
  split; [|by repeat split].
  symmetry in Hperm. by apply Permutation_length_2_inv in Hperm.
Qed.

(** A well-formed matrix, spelled out. *)
Lemma Matrix_wf_inv m :
  Matrix_wf m = true ->
  exists data type s0 s1 o0 o1 e0 e1 order,
    m = {| _value :=
             {| _data := data; _type := type;
                _layout := Some {| size := [s0; s1]; extent := [e0; e1];
                                   offset := [o0; o1]; increment := [e1; 1];
                                   dimensionOrder := order |} |} |} /\
    type <> Undefined /\
    (order = [0%nat; 1%nat] \/ order = [1%nat; 0%nat]) /\
    s0 + o0 <= e0 /\ s1 + o1 <= e1 /\ 0 <= o0 /\ 0 <= o1.
Proof.
  unfold Matrix_wf, IsDefined. destruct m as [[data type [l|]]]; simpl;
    [|rewrite andb_false_r; discriminate].
  intros [Hdef [Hdim Hwf]%andb_true_iff]%andb_true_iff.
  apply negb_true_iff, bool_decide_eq_false in Hdef.
  apply Nat.eqb_eq in Hdim.
  destruct (layout_wf_2 l Hdim Hwf)
    as (s0 & s1 & o0 & o1 & e0 & e1 & order & -> & Hord & Hrest).
  by exists data, type, s0, s1, o0, o1, e0, e1, order.
Qed.

(** Unpack a well-formed matrix and split on its dimension order. *)
Ltac matrix_cases m H :=
  let Hord := fresh "Hord" in
  destruct (Matrix_wf_inv m H)
    as (?data & ?type & ?s0 & ?s1 & ?o0 & ?o1 & ?e0 & ?e1 & ?order
        & -> & ?Hdef & Hord & ?Hs0 & ?Hs1 & ?Ho0 & ?Ho1);
  destruct Hord as [-> | ->].

(** *** Host memory *)

Lemma load_store_eq h p x h' : store h p x = Some h' -> load h' p = Some x.
Proof.
  unfold store, load. destruct (h !! block p) as [b|] eqn:Hb; [|discriminate].
  destruct (0 <=? cell p) eqn:Hc; [|discriminate].
  destruct (Z.to_nat (cell p) <? length b)%nat eqn:Hlt; [|discriminate].
  cbn [andb]. intros [= <-]. apply Nat.ltb_lt in Hlt.
  rewrite list_lookup_insert_eq by (by eapply lookup_lt_Some).
  by apply list_lookup_insert_eq.
Qed.

Lemma store_other_block h p x h' b :
  store h p x = Some h' -> b <> block p -> h' !! b = h !! b.
Proof.
  unfold store. destruct (h !! block p) as [blk|]; [|discriminate].
  destruct (_ && _); [|discriminate]. intros [= <-] Hne.
  by apply list_lookup_insert_ne.
Qed.

Lemma load_same_block h h' p : h' !! block p = h !! block p -> load h' p = load h p.
Proof. unfold load. by intros ->. Qed.

(** *** The constructor and [SubMatrix] *)

(** C6: [Matrix(Value)] throws [invalidArgument] exactly when the value
    is not defined, not constrained or not two-dimensional, and has no
    other failure; a matrix it returns wraps the value it was given, which
    is defined, constrained and two-dimensional. *)
Theorem Matrix_ctor_requires_constrained_2d (v : Value) :
  (Matrix_ctor v = Throw invalidArgument <->
     ~ (IsDefined v = true /\ IsConstrained v = true /\
        exists l, _layout v = Some l /\ NumDimensions l = 2%nat)) /\
  (forall m, Matrix_ctor v = Ok m ->
     _value m = v /\ IsDefined v = true /\ IsConstrained v = true /\
     exists l, GetLayout v = Ok l /\ NumDimensions l = 2%nat) /\
  Matrix_ctor v <> Fault.
Proof.
  unfold Matrix_ctor, GetLayout, IsConstrained.
  destruct (IsDefined v); simpl.
  2:{ split; [|split]; try done. split; [intros _ [? _]; done | done]. }
  destruct (_layout v) as [l|] eqn:Hl; simpl.
  2:{ split; [|split]; try done. split; [intros _ (_ & ? & _); done | done]. }
  destruct (Nat.eqb_spec (NumDimensions l) 2) as [Hd|Hd]; simpl.
  - split; [|split]; try done.
    + split; [done|]. intros Hn. exfalso. apply Hn. eauto 10.
    + intros m [= <-]. simpl. eauto 10.
  - split; [|split]; try done.
    split; [|done]. intros _ (_ & _ & l' & [= <-] & ?). done.
Qed.

(** The default value is rejected; the value of a 3 x 4 matrix is
    wrapped as it is. *)
Lemma Matrix_ctor_requires_constrained_2d_witness :
  Matrix_ctor Value_default = Throw invalidArgument /\
  forall m, Matrix_ctor (_value (hostMatrix 0 Float 3 4)) = Ok m ->
            _value m = _value (hostMatrix 0 Float 3 4).
Proof.
  split.
  - destruct (Matrix_ctor_requires_constrained_2d Value_default) as [[_ Hthrow] _].
    apply Hthrow. intros [Hdef _]. discriminate Hdef.
  - intros m Hm.
    destruct (Matrix_ctor_requires_constrained_2d (_value (hostMatrix 0 Float 3 4)))
      as (_ & Hok & _).
    destruct (Hok m Hm) as [Hvalue _]. exact Hvalue.
Defined.

(** C3: a [SubMatrix] request with more rows than the parent has active
    rows, or more columns than it has active columns, throws
    [indexOutOfRange]. *)
Theorem SubMatrix_extent_out_of_range (m : Matrix) (row column numRows numColumns : Z) :
  Matrix_wf m = true ->
  numRows > active_size m 0 \/ numColumns > active_size m 1 ->
  SubMatrix m row column numRows numColumns = Throw indexOutOfRange.
Proof.
  intros Hwf Hout. matrix_cases m Hwf; unfold SubMatrix, active_size in *; cbn in *;
    destruct (Z.gtb_spec numRows s0), (Z.gtb_spec numRows s1),
             (Z.gtb_spec numColumns s0), (Z.gtb_spec numColumns s1);
    cbn; try reflexivity; lia.
Qed.

(** With extents within the active sizes, [SubMatrix] returns a view for
    every starting offset: the view starts at the entry [(row, column)]
    of the parent, has the requested active sizes and addresses the
    parent's entries. *)
Lemma SubMatrix_ok (m : Matrix) (p : Pointer) (row column numRows numColumns : Z) :
  Matrix_wf m = true -> _data (_value m) = Some p ->
  numRows <= active_size m 0 -> numColumns <= active_size m 1 ->
  exists view q,
    SubMatrix m row column numRows numColumns = Ok view /\
    entry_pointer m row column = Some q /\
    _data (_value view) = Some q /\
    block q = block p /\
    _type (_value view) = _type (_value m) /\
    Matrix_wf view = true /\
    active_size view 0 = numRows /\ active_size view 1 = numColumns /\
    forall r c, Matrix_at view r c = Matrix_at m (row + r) (column + c).
Proof.
  intros Hwf Hp Hr Hc. matrix_cases m Hwf;
    unfold SubMatrix, active_size, entry_pointer, Matrix_at in *; cbn in *; subst data.
  - destruct (Z.gtb_spec numRows s0); [lia|].
    destruct (Z.gtb_spec numColumns s1); [lia|]. cbn.
    unfold MemoryLayout_ctor. cbn.
    rewrite (proj2 (Z.leb_le (numRows + 0) e0)) by lia.
    rewrite (proj2 (Z.leb_le (numColumns + 0) e1)) by lia. cbn.
    unfold Matrix_ctor, IsDefined. cbn.
    rewrite bool_decide_eq_false_2 by done. cbn.
    eexists _, _. split; [reflexivity|]. split; [reflexivity|]. cbn.
    repeat split.
    + unfold Matrix_wf, IsDefined, layout_wf. cbn.
      rewrite bool_decide_eq_false_2 by done.
      rewrite (proj2 (Z.leb_le (numRows + 0) e0)) by lia.
      rewrite (proj2 (Z.leb_le (numColumns + 0) e1)) by lia. cbn.
      rewrite !bool_decide_eq_true_2; done.
    + intros r c. unfold SetLayout, advance. cbn. do 4 f_equal. ring.
  - destruct (Z.gtb_spec numRows s1); [lia|].
    destruct (Z.gtb_spec numColumns s0); [lia|]. cbn.
    unfold MemoryLayout_ctor. cbn.
    rewrite (proj2 (Z.leb_le (numColumns + 0) e0)) by lia.
    rewrite (proj2 (Z.leb_le (numRows + 0) e1)) by lia. cbn.
    unfold Matrix_ctor, IsDefined. cbn.
    rewrite bool_decide_eq_false_2 by done. cbn.
    eexists _, _. split; [reflexivity|]. split; [reflexivity|]. cbn.
    repeat split.
    + unfold Matrix_wf, IsDefined, layout_wf. cbn.
      rewrite bool_decide_eq_false_2 by done.
      rewrite (proj2 (Z.leb_le (numColumns + 0) e0)) by lia.
      rewrite (proj2 (Z.leb_le (numRows + 0) e1)) by lia. cbn.
      rewrite !bool_decide_eq_true_2; [done | apply perm_swap | done].
    + intros r c. unfold SetLayout, advance. cbn. do 4 f_equal. ring.
Qed.

(** C4: the range check of [SubMatrix] does not look at the start: when
    each extent is within the active size, a view is returned for every
    [row] and [column], also when start plus extent runs past the parent;
    the view has the requested sizes and starts at the entry
    [(row, column)]. *)
Theorem SubMatrix_ignores_start_offsets (m : Matrix) (row column numRows numColumns : Z) :
  Matrix_wf m = true -> IsEmpty (_value m) = false ->
  numRows <= active_size m 0 -> numColumns <= active_size m 1 ->
  exists view,
    SubMatrix m row column numRows numColumns = Ok view /\
    active_size view 0 = numRows /\ active_size view 1 = numColumns /\
    _data (_value view) = entry_pointer m row column.
Proof.
  intros Hwf Hne Hr Hc. unfold IsEmpty in Hne. apply bool_decide_eq_false in Hne.
  destruct (_data (_value m)) as [p|] eqn:Hp; [|done].
  destruct (SubMatrix_ok m p row column numRows numColumns Hwf Hp Hr Hc)
    as (view & q & Hsub & Hq & Hdata & _ & _ & _ & Hrows & Hcols & _).
  exists view. rewrite Hq. done.
Qed.

(** Rows 2..3 and columns 3..4 of a 3 x 4 matrix. *)
Lemma SubMatrix_ignores_start_offsets_witness :
  exists view,
    SubMatrix (hostMatrix 0 Float 3 4) 2 3 2 2 = Ok view /\
    active_size view 0 = 2 /\ active_size view 1 = 2 /\
    _data (_value view) = entry_pointer (hostMatrix 0 Float 3 4) 2 3.
Proof.
  apply (SubMatrix_ignores_start_offsets (hostMatrix 0 Float 3 4) 2 3 2 2);
    vm_compute; congruence.
Defined.

Lemma SubMatrix_extent_out_of_range_witness :
    SubMatrix (hostMatrix 0 Float 3 4) 0 0 4 2 = Throw indexOutOfRange.
Proof.
  apply (SubMatrix_extent_out_of_range (hostMatrix 0 Float 3 4) 0 0 4 2).
  - vm_compute; reflexivity.
  - left. vm_compute. reflexivity.
Defined.

(** *** Elementwise addition *)

Lemma sizes_mismatch_rows_equal (this m : Matrix) :
  Matrix_wf this = true -> Matrix_wf m = true ->
  Rows m = Rows this -> sizes_mismatch this m = Ok false.
Proof.
  intros Hthis Hm. matrix_cases this Hthis; matrix_cases m Hm;
    unfold sizes_mismatch, Rows; cbn -[to_size_t];
    intros [= ->]; rewrite Z.eqb_refl; reflexivity.
Qed.

Lemma sizes_mismatch_both_differ (this m : Matrix) :
  Matrix_wf this = true -> Matrix_wf m = true ->
  Rows m <> Rows this -> Columns m <> Columns this ->
  sizes_mismatch this m = Ok true.
Proof.
  intros Hthis Hm. matrix_cases this Hthis; matrix_cases m Hm;
    unfold sizes_mismatch, Rows, Columns; cbn -[to_size_t];
    intros Hr Hc;
    repeat match goal with
           | |- context [?a =? ?b] =>
               destruct (Z.eqb_spec a b); [congruence|]; cbn
           end; reflexivity.
Qed.

(** C5: [m1 += m2] on matrices with the same numbers of rows and columns
    and different element types throws [typeMismatch], which is not
    [sizeMismatch], and leaves the memory as it was. *)
Theorem add_assign_type_mismatch (h : Heap) (this m : Matrix) :
  Matrix_wf this = true -> Matrix_wf m = true ->
  Rows m = Rows this -> Columns m = Columns this ->
  Type_ m <> Type_ this ->
  Matrix_add_assign this m h = (h, Throw typeMismatch) /\
  @Throw unit typeMismatch <> Throw sizeMismatch.
Proof.
  intros Hthis Hm Hrows _ Htype. split; [|discriminate].
  unfold Matrix_add_assign, bind, lift.
  rewrite (sizes_mismatch_rows_equal this m Hthis Hm Hrows).
  rewrite bool_decide_eq_false_2 by done. reflexivity.
Qed.

(** When rows and columns both differ (3 x 4 and 4 x 3, say),
    [sizeMismatch] is thrown before anything is written. *)
Lemma add_assign_size_mismatch (h : Heap) (this m : Matrix) :
  Matrix_wf this = true -> Matrix_wf m = true ->
  Rows m <> Rows this -> Columns m <> Columns this ->
  Matrix_add_assign this m h = (h, Throw sizeMismatch).
Proof.
  intros Hthis Hm Hrows Hcols.
  unfold Matrix_add_assign, bind, lift.
  by rewrite (sizes_mismatch_both_differ this m Hthis Hm Hrows Hcols).
Qed.

Lemma add_assign_type_mismatch_witness :
  let h := [replicate 12 1; replicate 12 2] in
  Matrix_add_assign (hostMatrix 0 Float 3 4) (hostMatrix 1 Int32 3 4) h
    = (h, Throw typeMismatch) /\
  @Throw unit typeMismatch <> Throw sizeMismatch.
Proof.
  intros h.
  apply (add_assign_type_mismatch h (hostMatrix 0 Float 3 4) (hostMatrix 1 Int32 3 4));
    vm_compute; congruence.
Defined.

(** C1 fails on the code: the size test of [operator+=] joins the two
    comparisons with [&&], so matrices that differ in one dimension only
    pass it.  With a 3 x 4 destination, a 3 x 3 source is added into the
    first three columns and the call returns; a 3 x 5 source is added
    across the rows of the destination until the loop leaves its storage. *)
Theorem add_assign_misses_single_dimension_mismatch :
  let h := [replicate 12 1; replicate 15 10] in
  let m1 := hostMatrix 0 Float 3 4 in
  (Rows (hostMatrix 1 Float 3 3) = Rows m1 /\
   Columns (hostMatrix 1 Float 3 3) <> Columns m1 /\
   Matrix_add_assign m1 (hostMatrix 1 Float 3 3) h
     = ([[11; 11; 11; 1; 11; 11; 11; 1; 11; 11; 11; 1]; replicate 15 10], Ok tt)) /\
  (Rows (hostMatrix 1 Float 3 5) = Rows m1 /\
   Columns (hostMatrix 1 Float 3 5) <> Columns m1 /\
   Matrix_add_assign m1 (hostMatrix 1 Float 3 5) h
     = ([[11; 11; 11; 11; 21; 11; 11; 11; 21; 11; 11; 11]; replicate 15 10], Fault)).
Proof. vm_compute. repeat split; congruence. Qed.

(** *** Views and copies *)

(** Every entry of a matrix with storage is addressed in the block of
    that storage. *)
Lemma Matrix_at_ok (m : Matrix) (p : Pointer) (row column : Z) :
  Matrix_wf m = true -> _data (_value m) = Some p ->
  exists q, Matrix_at m row column
            = Ok {| _data := Some q; _type := _type (_value m);
                    _layout := Some ScalarLayout |} /\
            block q = block p.
Proof.
  intros Hwf Hp. matrix_cases m Hwf; cbn in *; subst data;
    unfold Matrix_at; cbn; eexists; split; reflexivity.
Qed.





Lemma range_spec (n i : Z) : i ∈ range n <-> 0 <= i < n.
Proof.
  unfold range. rewrite list_elem_of_fmap. split.
  - intros (k & -> & Hk). apply elem_of_seq in Hk. lia.
  - intros Hi. exists (Z.to_nat i). split; [lia|]. apply elem_of_seq. lia.
Qed.














(** On a padded matrix (a 3 x 4 active region at offset (1, 1) of 5 x 6
    cells) the view of row 1 starts at the parent's entry (1, 0) and its
    element 0 is the parent's entry (1, 1): the slice adds the column
    offset once more. *)
Example Row_of_padded_matrix :
  let m := {| _value := {| _data := Some {| block := 0; cell := 0 |};
                           _type := Float;
                           _layout := Some {| size := [3; 4]; extent := [5; 6];
                                              offset := [1; 1]; increment := [6; 1];
                                              dimensionOrder := [0%nat; 1%nat] |} |} |} in
  Matrix_wf m = true /\
  exists v, Row m 1 = Ok v /\
            _data (_vector_value v) = entry_pointer m 1 0 /\
            Vector_at v 0 = Matrix_at m 1 1.
Proof. vm_compute. split; [reflexivity|]. eexists. repeat split. Qed.

(** On the 3 x 4 matrix: writing 0 through the view of rows 1..2 and columns
    2..3 changes entry (1, 2) of the parent; writing 0 into a copy does
    not. *)
Example SubMatrix_write_seen_Copy_write_not :
  let h := [[1; 2; 3; 4; 5; 6; 7; 8; 9; 10; 11; 12]] in
  let m := hostMatrix 0 Float 3 4 in
  (let* view := lift (SubMatrix m 1 2 2 2) in
   run Matrix_set view 0 0 0 then Matrix_get m 1 2) h
  = ([[1; 2; 3; 4; 5; 6; 0; 8; 9; 10; 11; 12]], Ok 0) /\
  (let* copy := Copy m in
   run Matrix_set copy 1 2 0 then Matrix_get m 1 2) h
  = ([[1; 2; 3; 4; 5; 6; 7; 8; 9; 10; 11; 12];
      [1; 2; 3; 4; 5; 6; 0; 8; 9; 10; 11; 12]], Ok 7).
Proof. vm_compute. split; reflexivity. Qed.

(** The view of rows 1..2 and columns 1..2 of that matrix keeps the
    extent of its parent, 12 cells, of which 7 are allocated from its
    start on: its [Copy] faults. *)
Example Copy_of_inner_view_faults :
  let h := [[1; 2; 3; 4; 5; 6; 7; 8; 9; 10; 11; 12]] in
  let m := hostMatrix 0 Float 3 4 in
  ((let* view := lift (SubMatrix m 1 1 2 2) in Copy view) h).2 = Fault.
Proof. vm_compute. reflexivity. Qed.

(** On the same matrix: writing 0 to element 2 of the view of row 1, or
    to element 1 of the view of column 2, changes entry (1, 2) of the
    parent. *)
Example Row_Column_write_seen :
  let h := [[1; 2; 3; 4; 5; 6; 7; 8; 9; 10; 11; 12]] in
  let m := hostMatrix 0 Float 3 4 in
  (let* v := lift (Row m 1) in
   run Vector_set v 2 0 then Matrix_get m 1 2) h
  = ([[1; 2; 3; 4; 5; 6; 0; 8; 9; 10; 11; 12]], Ok 0) /\
  (let* v := lift (Column m 2) in
   run Vector_set v 1 0 then Matrix_get m 1 2) h
  = ([[1; 2; 3; 4; 5; 6; 0; 8; 9; 10; 11; 12]], Ok 0).
Proof. vm_compute. split; reflexivity. Qed.

End ValueSpec.

Module EmittersSpec.
Import Emitters.

(** *** The blocks of an emitted loop *)

(** An instruction for a block that existed before the last blocks were
    made, and for one of the last blocks. *)
Lemma emit_old_block (l1 l2 : list (list Instruction)) (b : BlockId) (vars : nat)
      (i : Instruction) :
  (b < length l1)%nat ->
  emit {| blocks := l1 ++ l2; currentBlock := b; variables := vars |} i =
  {| blocks := alter (fun instrs => instrs ++ [i]) b l1 ++ l2; currentBlock := b;
     variables := vars |}.
Proof. intros Hb. unfold emit. cbn. by rewrite alter_app_l. Qed.

Lemma emit_new_block (k : nat) (l1 l2 : list (list Instruction)) (b : BlockId)
      (vars : nat) (i : Instruction) :
  b = (length l1 + k)%nat ->
  emit {| blocks := l1 ++ l2; currentBlock := b; variables := vars |} i =
  {| blocks := l1 ++ alter (fun instrs => instrs ++ [i]) k l2; currentBlock := b;
     variables := vars |}.
Proof. intros ->. unfold emit. cbn. by rewrite alter_app_r. Qed.

Lemma for_CreateBlocks_eq (bs : list (list Instruction)) (cur : BlockId) (vars : nat) :
  let n := length bs in
  IRForLoopEmitter.CreateBlocks {| blocks := bs; currentBlock := cur; variables := vars |} =
  ({| IRForLoopEmitter._pInitializationBlock := n;
      IRForLoopEmitter._pConditionBlock := n + 1;
      IRForLoopEmitter._pBodyBlock := n + 2;
      IRForLoopEmitter._pIncrementBlock := n + 3;
      IRForLoopEmitter._pAfterBlock := n + 4;
      IRForLoopEmitter._pIterationVariable := None |},
   {| blocks := bs ++ [[]; []; []; []; []]; currentBlock := cur; variables := vars |})%nat.
Proof.
  unfold IRForLoopEmitter.CreateBlocks, Block. cbn [blocks currentBlock variables].
  rewrite !length_app. cbn [length]. rewrite <- !app_assoc. cbn [app].
  do 2 f_equal; lia.
Qed.

Lemma while_CreateBlocks_eq (bs : list (list Instruction)) (cur : BlockId) (vars : nat) :
  let n := length bs in
  IRWhileLoopEmitter.CreateBlocks {| blocks := bs; currentBlock := cur; variables := vars |} =
  ({| IRWhileLoopEmitter._pInitializationBlock := n;
      IRWhileLoopEmitter._pConditionBlock := n + 1;
      IRWhileLoopEmitter._pBodyBlock := n + 2;
      IRWhileLoopEmitter._pAfterBlock := n + 3 |},
   {| blocks := bs ++ [[]; []; []; []]; currentBlock := cur; variables := vars |})%nat.
Proof.
  unfold IRWhileLoopEmitter.CreateBlocks, Block. cbn [blocks currentBlock variables].
  rewrite !length_app. cbn [length]. rewrite <- !app_assoc. cbn [app].
  do 2 f_equal; lia.
Qed.

Lemma writes_spec (f1 f2 : IRFunctionEmitter) :
  writes f1 f2 = true ->
  (length (blocks f1) <= length (blocks f2))%nat /\
  (forall b, (b < length (blocks f1))%nat -> b <> currentBlock f1 ->
             blocks f2 !! b = blocks f1 !! b) /\
  (currentBlock f2 = currentBlock f1 \/ (length (blocks f1) <= currentBlock f2)%nat) /\
  (currentBlock f2 < length (blocks f2))%nat.
Proof.
  unfold writes. rewrite !andb_true_iff.
  intros [[[Hlen Hframe] Hcur] Hvalid].
  split; [by apply Nat.leb_le|]. split; [|split].
  - intros b Hb Hne. rewrite forallb_forall in Hframe.
    specialize (Hframe b). rewrite <- list_elem_of_In, elem_of_seq in Hframe.
    specialize (Hframe ltac:(lia)).
    apply orb_true_iff in Hframe as [Heq|Heq]; [apply Nat.eqb_eq in Heq; lia|].
    by apply bool_decide_eq_true_1 in Heq.
  - apply orb_true_iff in Hcur as [Heq|Hge];
      [left; by apply Nat.eqb_eq | right; by apply Nat.leb_le].
  - by apply Nat.ltb_lt.
Qed.

(** An instruction changes the current block only, at its end. *)
Lemma emit_lookup_other (f : IRFunctionEmitter) (i : Instruction) (b : BlockId) :
  b <> currentBlock f -> blocks (emit f i) !! b = blocks f !! b.
Proof. intros Hne. unfold emit. cbn [blocks]. by apply list_lookup_alter_ne. Qed.

Lemma emit_lookup_current (f : IRFunctionEmitter) (i : Instruction) :
  blocks (emit f i) !! currentBlock f
  = (fun instrs => instrs ++ [i]) <$> blocks f !! currentBlock f.
Proof. unfold emit. cbn [blocks]. apply list_lookup_alter_eq. Qed.

Lemma successors_lookup (f g : IRFunctionEmitter) (b c : BlockId) :
  blocks f !! b = blocks g !! c -> successors f b = successors g c.
Proof. unfold successors. by intros ->. Qed.

Lemma successors_emit_branch (f : IRFunctionEmitter) (target : BlockId) :
  (currentBlock f < length (blocks f))%nat ->
  successors (emit f (Branch target)) (currentBlock f) = [target].
Proof.
  intros Hcur. unfold successors. rewrite emit_lookup_current.
  destruct (lookup_lt_is_Some_2 _ _ Hcur) as [old ->]. cbn. by rewrite last_snoc.
Qed.

Lemma successors_emit_conditional (f : IRFunctionEmitter) (c : TypedComparison)
      (x y : Operand) (thenBlock elseBlock : BlockId) :
  (currentBlock f < length (blocks f))%nat ->
  successors (emit f (ConditionalBranch c x y thenBlock elseBlock)) (currentBlock f)
  = [thenBlock; elseBlock].
Proof.
  intros Hcur. unfold successors. rewrite emit_lookup_current.
  destruct (lookup_lt_is_Some_2 _ _ Hcur) as [old ->]. cbn. by rewrite last_snoc.
Qed.

(** A block that existed and was not current when code was written is,
    after a branch was added where that code ended, as it was. *)
Lemma lookup_after_code (f1 f2 : IRFunctionEmitter) (i : Instruction) (b : BlockId) :
  writes f1 f2 = true ->
  (b < length (blocks f1))%nat -> b <> currentBlock f1 ->
  b <> currentBlock f2 /\ blocks (emit f2 i) !! b = blocks f1 !! b.
Proof.
  intros Hw Hb Hne. destruct (writes_spec f1 f2 Hw) as (Hlen & Hframe & Hcur & Hvalid).
  assert (b <> currentBlock f2) as Hne2 by (destruct Hcur; lia).
  split; [exact Hne2|]. rewrite emit_lookup_other by exact Hne2. by apply Hframe.
Qed.

(** The function after [Begin], in closed form. *)
Lemma for_BeginValues_eq (bs : list (list Instruction)) (cur : BlockId) (vars : nat)
      (start max step : Operand) :
  (cur < length bs)%nat ->
  let n := length bs in
  IRForLoopEmitter.BeginValues
    {| blocks := bs; currentBlock := cur; variables := vars |} start max step =
  ({| IRForLoopEmitter._pInitializationBlock := n;
      IRForLoopEmitter._pConditionBlock := n + 1;
      IRForLoopEmitter._pBodyBlock := n + 2;
      IRForLoopEmitter._pIncrementBlock := n + 3;
      IRForLoopEmitter._pAfterBlock := n + 4;
      IRForLoopEmitter._pIterationVariable := Some vars |}%nat,
   {| blocks :=
        alter (fun instrs => instrs ++ [Branch n]) cur bs ++
        [ [Alloca vars; Store vars start; Branch (n + 1)];
          [ConditionalBranch lessThan (LoadVariable vars) max (n + 2) (n + 4)];
          [];
          [OperationAndUpdate vars step; Branch (n + 1)];
          [] ];
      currentBlock := (n + 2)%nat;
      variables := S vars |}).
Proof.
  intros Hcur n.
  unfold IRForLoopEmitter.BeginValues.
  rewrite for_CreateBlocks_eq. fold n.
  unfold IRForLoopEmitter.EmitIterationVariable, Variable_, SetCurrentBlock.
  cbn [IRForLoopEmitter._pInitializationBlock IRForLoopEmitter._pConditionBlock
       IRForLoopEmitter._pBodyBlock IRForLoopEmitter._pIncrementBlock
       IRForLoopEmitter._pAfterBlock IRForLoopEmitter._pIterationVariable
       blocks currentBlock variables].
  rewrite emit_old_block by exact Hcur.
  cbn [blocks currentBlock variables].
  assert (length (alter (fun instrs => instrs ++ [Branch n]) cur bs) = n) as Hlen
    by apply length_alter.
  rewrite !(emit_new_block 0) by lia. cbn [alter list_alter app].
  unfold IRForLoopEmitter.EmitCondition, IRForLoopEmitter.EmitIncrement,
    IRForLoopEmitter.PrepareBody,
    IRForLoopEmitter.LoadIterationVariable, SetCurrentBlock.
  cbn [IRForLoopEmitter._pInitializationBlock IRForLoopEmitter._pConditionBlock
       IRForLoopEmitter._pBodyBlock IRForLoopEmitter._pIncrementBlock
       IRForLoopEmitter._pAfterBlock IRForLoopEmitter._pIterationVariable
       blocks currentBlock variables default].
  rewrite (emit_new_block 0) by lia. cbn [alter list_alter app blocks currentBlock variables].
  rewrite (emit_new_block 1) by lia. cbn [alter list_alter app blocks currentBlock variables].
  rewrite !(emit_new_block 3) by lia. cbn [alter list_alter app blocks currentBlock variables].
  reflexivity.
Qed.


Lemma lookup_new_block {A} (l1 l2 : list A) (n k : nat) :
  length l1 = n -> (l1 ++ l2) !! (n + k)%nat = l2 !! k.
Proof.
  intros <-. rewrite lookup_app_r by lia.
  by replace (length l1 + k - length l1)%nat with k by lia.
Qed.

Lemma lookup_branch_appended (bs l2 : list (list Instruction)) (cur : BlockId)
      (target : BlockId) :
  (cur < length bs)%nat ->
  (alter (fun instrs => instrs ++ [Branch target]) cur bs ++ l2) !! cur
  = (fun instrs => instrs ++ [Branch target]) <$> bs !! cur.
Proof.
  intros Hcur. rewrite lookup_app_l by (by rewrite length_alter).
  apply list_lookup_alter_eq.
Qed.

Lemma lookup_old_block (bs l2 : list (list Instruction)) (cur b : BlockId)
      (target : BlockId) :
  (b < length bs)%nat -> b <> cur ->
  (alter (fun instrs => instrs ++ [Branch target]) cur bs ++ l2) !! b = bs !! b.
Proof.
  intros Hb Hne. rewrite lookup_app_l by (by rewrite length_alter).
  by apply list_lookup_alter_ne.
Qed.

Lemma successors_of (f : IRFunctionEmitter) (b : BlockId) (instrs : list Instruction)
      (i : Instruction) :
  blocks f !! b = Some (instrs ++ [i]) ->
  successors f b = match i with
                   | Branch target => [target]
                   | ConditionalBranch _ _ _ thenBlock elseBlock => [thenBlock; elseBlock]
                   | _ => []
                   end.
Proof. unfold successors. intros ->. by rewrite last_snoc. Qed.

(** The wiring of a for loop around any body. *)
Lemma for_loop_wiring (f : IRFunctionEmitter) (start max step : Operand)
      (body : IRForLoopEmitter.IRForLoopEmitter -> IRFunctionEmitter -> IRFunctionEmitter) :
  (currentBlock f < length (blocks f))%nat ->
  let n := length (blocks f) in
  let i := variables f in
  let begun := IRForLoopEmitter.BeginValues f start max step in
  let loop := begun.1 in
  let written := body loop begun.2 in
  let f' := IRForLoopEmitter.End loop written in
  writes begun.2 written = true ->
  length (blocks begun.2) = (n + 5)%nat /\
  length (blocks f') = length (blocks written) /\
  IRForLoopEmitter._pInitializationBlock loop = n /\
  IRForLoopEmitter._pConditionBlock loop = (n + 1)%nat /\
  IRForLoopEmitter._pBodyBlock loop = (n + 2)%nat /\
  IRForLoopEmitter._pIncrementBlock loop = (n + 3)%nat /\
  IRForLoopEmitter._pAfterBlock loop = (n + 4)%nat /\
  currentBlock begun.2 = (n + 2)%nat /\
  blocks begun.2 !! (n + 2)%nat = Some [] /\
  blocks f' !! n = Some [Alloca i; Store i start; Branch (n + 1)] /\
  blocks f' !! (n + 1)%nat
    = Some [ConditionalBranch lessThan (LoadVariable i) max (n + 2) (n + 4)] /\
  blocks f' !! (n + 3)%nat = Some [OperationAndUpdate i step; Branch (n + 1)] /\
  blocks f' !! (n + 4)%nat = Some [] /\
  blocks f' !! currentBlock written
    = (fun instrs => instrs ++ [Branch (n + 3)]) <$> blocks written !! currentBlock written /\
  (forall b, b <> currentBlock written -> blocks f' !! b = blocks written !! b) /\
  (forall b, (b < n)%nat -> b <> currentBlock f -> blocks f' !! b = blocks f !! b) /\
  successors f' (currentBlock f) = [n] /\
  successors f' n = [(n + 1)%nat] /\
  successors f' (n + 1) = [(n + 2)%nat; (n + 4)%nat] /\
  successors f' (currentBlock written) = [(n + 3)%nat] /\
  successors f' (n + 3) = [(n + 1)%nat] /\
  successors f' (n + 4) = [] /\
  currentBlock f' = (n + 4)%nat.
Proof.
  destruct f as [bs cur vars].
  intros Hcur n i begun loop written f'.
  cbn [currentBlock blocks variables] in Hcur, n, i.
  pose proof (for_BeginValues_eq bs cur vars start max step Hcur) as Heq.
  cbv zeta in Heq. fold n begun in Heq.
  subst f' written loop. clearbody begun. subst begun. cbn [fst snd].
  assert (length bs = n) as Hn by reflexivity. clearbody n. rewrite Hn in Hcur.
  set (loop := {| IRForLoopEmitter._pInitializationBlock := n |}).
  set (l1 := alter (fun instrs => instrs ++ [Branch n]) cur bs).
  assert (length l1 = n) as Hl1 by (rewrite <- Hn; apply length_alter).
  set (f1 := {| blocks := l1 ++ _ |}).
  set (written := body loop f1).
  intros Hw.
  destruct (writes_spec f1 written Hw) as (Hlen & Hframe & Hcurw & Hvalid).
  assert (length (blocks f1) = (n + 5)%nat) as Hlen1
    by (unfold f1; cbn [blocks]; rewrite length_app, Hl1; reflexivity).
  rewrite Hlen1 in Hlen, Hframe, Hcurw. cbn [currentBlock f1] in Hframe, Hcurw.
  assert (forall b, (b < n + 5)%nat -> b <> (n + 2)%nat ->
                    blocks (IRForLoopEmitter.End loop written) !! b = blocks f1 !! b)
    as Hstatic.
  { intros b Hb Hne. unfold IRForLoopEmitter.End, SetCurrentBlock. cbn [blocks].
    apply (lookup_after_code f1 written); [exact Hw | lia | exact Hne]. }
  assert (forall k, blocks f1 !! (n + k)%nat
                    = [ [Alloca vars; Store vars start; Branch (n + 1)];
                        [ConditionalBranch lessThan (LoadVariable vars) max (n + 2) (n + 4)];
                        [];
                        [OperationAndUpdate vars step; Branch (n + 1)];
                        [] ] !! k) as Hnew
    by (intros k; apply lookup_new_block, Hl1).
  assert (blocks (IRForLoopEmitter.End loop written) !! n
          = Some [Alloca vars; Store vars start; Branch (n + 1)]) as H0.
  { rewrite Hstatic by lia. replace n with (n + 0)%nat at 1 by lia. by rewrite Hnew. }
  assert (blocks (IRForLoopEmitter.End loop written) !! (n + 1)%nat
          = Some [ConditionalBranch lessThan (LoadVariable vars) max (n + 2) (n + 4)]) as H1.
  { rewrite Hstatic by lia. by rewrite Hnew. }
  assert (blocks (IRForLoopEmitter.End loop written) !! (n + 3)%nat
          = Some [OperationAndUpdate vars step; Branch (n + 1)]) as H3.
  { rewrite Hstatic by lia. by rewrite Hnew. }
  assert (blocks (IRForLoopEmitter.End loop written) !! (n + 4)%nat = Some []) as H4.
  { rewrite Hstatic by lia. by rewrite Hnew. }
  assert (blocks (IRForLoopEmitter.End loop written) !! currentBlock written
          = (fun instrs => instrs ++ [Branch (n + 3)]) <$> blocks written !! currentBlock written)
    as Hend by apply emit_lookup_current.
  assert (forall b, (b < n)%nat -> b <> cur ->
                    blocks (IRForLoopEmitter.End loop written) !! b = bs !! b) as Hold.
  { intros b Hb Hne. rewrite Hstatic by lia. unfold f1, l1. cbn [blocks].
    apply lookup_old_block; [lia | exact Hne]. }
  split; [exact Hlen1|].
  split; [unfold IRForLoopEmitter.End, SetCurrentBlock, emit; cbn [blocks];
          apply length_alter|].
  do 6 (split; [reflexivity|]).
  split; [by rewrite Hnew|].
  do 4 (split; [assumption|]).
  split; [exact Hend|].
  split; [intros b Hne; by apply emit_lookup_other|].
  split; [exact Hold|].
  split.
  { destruct (lookup_lt_is_Some_2 bs cur) as [old Hold']; [lia|].
    apply (successors_of _ _ old (Branch n)).
    cbn [currentBlock]. rewrite Hstatic by lia. unfold f1, l1. cbn [blocks].
    rewrite lookup_branch_appended by lia. by rewrite Hold'. }
  split; [by apply (successors_of _ _ [Alloca vars; Store vars start] (Branch (n + 1)))|].
  split; [by apply (successors_of _ _ [] (ConditionalBranch lessThan (LoadVariable vars) max
                                                            (n + 2) (n + 4)))|].
  split.
  { destruct (lookup_lt_is_Some_2 _ _ Hvalid) as [old Hold'].
    apply (successors_of _ _ old (Branch (n + 3))). by rewrite Hend, Hold'. }
  split; [by apply (successors_of _ _ [OperationAndUpdate vars step] (Branch (n + 1)))|].
  split; [unfold successors; by rewrite H4|].
  reflexivity.
Qed.



(** The function when the code of the condition of a while loop is
    written, in closed form. *)
Lemma while_EnterCondition_eq (bs : list (list Instruction)) (cur : BlockId) (vars : nat) :
  (cur < length bs)%nat ->
  let n := length bs in
  let created :=
    IRWhileLoopEmitter.CreateBlocks {| blocks := bs; currentBlock := cur; variables := vars |} in
  IRWhileLoopEmitter.EnterCondition created.1
    (IRWhileLoopEmitter.EmitInitialization created.1 created.2) =
  {| blocks :=
       alter (fun instrs => instrs ++ [Branch n]) cur bs ++ [ [Branch (n + 1)]; []; []; [] ];
     currentBlock := (n + 1)%nat;
     variables := vars |}.
Proof.
  intros Hcur n created. subst created. rewrite while_CreateBlocks_eq. fold n.
  unfold IRWhileLoopEmitter.EnterCondition, IRWhileLoopEmitter.EmitInitialization, SetCurrentBlock.
  cbn [fst snd IRWhileLoopEmitter._pInitializationBlock
       IRWhileLoopEmitter._pConditionBlock blocks currentBlock variables].
  rewrite emit_old_block by exact Hcur.
  cbn [blocks currentBlock variables].
  assert (length (alter (fun instrs => instrs ++ [Branch n]) cur bs) = n) as Hlen
    by apply length_alter.
  rewrite (emit_new_block 0) by lia. cbn [alter list_alter app blocks currentBlock variables].
  reflexivity.
Qed.

(** The wiring of a while loop around any condition and any body. *)
Lemma while_loop_wiring (f : IRFunctionEmitter) (condition : IRWhileLoopEmitter.Condition)
      (body : IRFunctionEmitter -> IRFunctionEmitter) :
  (currentBlock f < length (blocks f))%nat ->
  let n := length (blocks f) in
  let created := IRWhileLoopEmitter.CreateBlocks f in
  let loop := created.1 in
  let entered :=
    IRWhileLoopEmitter.EnterCondition loop (IRWhileLoopEmitter.EmitInitialization loop created.2) in
  let tested := condition entered in
  let begun := IRWhileLoopEmitter.BeginLambda f condition in
  let written := body begun.2 in
  let f' := IRWhileLoopEmitter.End begun.1 written in
  writes entered tested.2 = true ->
  writes begun.2 written = true ->
  begun.1 = loop /\
  length (blocks entered) = (n + 4)%nat /\
  length (blocks begun.2) = length (blocks tested.2) /\
  length (blocks f') = length (blocks written) /\
  IRWhileLoopEmitter._pInitializationBlock loop = n /\
  IRWhileLoopEmitter._pConditionBlock loop = (n + 1)%nat /\
  IRWhileLoopEmitter._pBodyBlock loop = (n + 2)%nat /\
  IRWhileLoopEmitter._pAfterBlock loop = (n + 3)%nat /\
  currentBlock entered = (n + 1)%nat /\
  blocks entered !! (n + 1)%nat = Some [] /\
  currentBlock begun.2 = (n + 2)%nat /\
  blocks begun.2 !! (n + 2)%nat = Some [] /\
  blocks f' !! n = Some [Branch (n + 1)] /\
  blocks f' !! (n + 3)%nat = Some [] /\
  blocks f' !! currentBlock tested.2
    = (fun instrs => instrs ++ [ConditionalBranch notEquals tested.1 (Literal 0)
                                                  (n + 2) (n + 3)])
        <$> blocks tested.2 !! currentBlock tested.2 /\
  blocks f' !! currentBlock written
    = (fun instrs => instrs ++ [Branch (n + 1)]) <$> blocks written !! currentBlock written /\
  (forall b, b <> currentBlock written -> blocks f' !! b = blocks written !! b) /\
  (forall b, (b < n)%nat -> b <> currentBlock f -> blocks f' !! b = blocks f !! b) /\
  successors f' (currentBlock f) = [n] /\
  successors f' n = [(n + 1)%nat] /\
  successors f' (currentBlock tested.2) = [(n + 2)%nat; (n + 3)%nat] /\
  successors f' (currentBlock written) = [(n + 1)%nat] /\
  successors f' (n + 3) = [] /\
  currentBlock f' = (n + 3)%nat.
Proof.
  destruct f as [bs cur vars].
  intros Hcur n created loop entered tested begun written f'.
  cbn [currentBlock blocks variables] in Hcur, n.
  pose proof (while_EnterCondition_eq bs cur vars Hcur) as Heq.
  cbv zeta in Heq. fold n created loop entered in Heq.
  assert (created = (loop, created.2)) as Hcreated by (by destruct created).
  assert (loop = {| IRWhileLoopEmitter._pInitializationBlock := n;
                    IRWhileLoopEmitter._pConditionBlock := n + 1;
                    IRWhileLoopEmitter._pBodyBlock := n + 2;
                    IRWhileLoopEmitter._pAfterBlock := n + 3 |}%nat) as Hloop.
  { subst loop created. by rewrite while_CreateBlocks_eq. }
  assert (begun = (loop, IRWhileLoopEmitter.PrepareBody loop
                           (emit tested.2
                              (ConditionalBranch notEquals tested.1 (Literal 0)
                                 (IRWhileLoopEmitter._pBodyBlock loop)
                                 (IRWhileLoopEmitter._pAfterBlock loop))))) as Hbegun.
  { subst begun. unfold IRWhileLoopEmitter.BeginLambda. fold created. rewrite Hcreated.
    unfold IRWhileLoopEmitter.EmitConditionLambda. fold entered. fold tested.
    by destruct tested. }
  subst f' written. clearbody begun. subst begun. cbn [fst snd].
  clearbody entered. subst entered. clearbody loop. subst loop. clear created Hcreated.
  cbn [IRWhileLoopEmitter._pInitializationBlock IRWhileLoopEmitter._pConditionBlock
       IRWhileLoopEmitter._pBodyBlock IRWhileLoopEmitter._pAfterBlock].
  assert (length bs = n) as Hn by reflexivity. clearbody n. rewrite Hn in Hcur.
  set (loop := {| IRWhileLoopEmitter._pInitializationBlock := n |}).
  set (l1 := alter (fun instrs => instrs ++ [Branch n]) cur bs) in *.
  assert (length l1 = n) as Hl1 by (rewrite <- Hn; apply length_alter).
  set (entered := {| blocks := l1 ++ _ |}) in *.
  destruct tested as [test ft]. cbn [fst snd].
  unfold IRWhileLoopEmitter.PrepareBody, SetCurrentBlock. cbn [blocks currentBlock variables].
  set (branch := ConditionalBranch notEquals test (Literal 0) (n + 2) (n + 3)).
  set (f1 := {| blocks := blocks (emit ft branch) |}).
  set (written := body f1).
  intros Ht Hw.
  destruct (writes_spec entered ft Ht) as (Hlent & Hframet & Hcurt & Hvalidt).
  assert (length (blocks entered) = (n + 4)%nat) as Hlene
    by (unfold entered; cbn [blocks]; rewrite length_app, Hl1; reflexivity).
  rewrite Hlene in Hlent, Hframet, Hcurt. cbn [currentBlock entered] in Hframet, Hcurt.
  destruct (writes_spec f1 written Hw) as (Hlen & Hframe & Hcurw & Hvalid).
  assert (length (blocks f1) = length (blocks ft)) as Hlen1
    by (unfold f1, emit; cbn [blocks]; apply length_alter).
  rewrite Hlen1 in Hlen, Hframe, Hcurw. cbn [currentBlock f1] in Hframe, Hcurw.
  assert (forall k, blocks entered !! (n + k)%nat
                    = [ [Branch (n + 1)]; []; []; [] ] !! k) as Hnew
    by (intros k; apply lookup_new_block, Hl1).
  (* blocks the loop made, except where the condition ends and the body *)
  assert (forall b, (b < length (blocks ft))%nat -> b <> (n + 2)%nat ->
                    blocks (IRWhileLoopEmitter.End loop written) !! b = blocks f1 !! b)
    as Hafter.
  { intros b Hb Hne. unfold IRWhileLoopEmitter.End, SetCurrentBlock. cbn [blocks].
    apply (lookup_after_code f1 written); [exact Hw | lia | exact Hne]. }
  assert (forall b, (b < n + 4)%nat -> b <> (n + 1)%nat -> b <> (n + 2)%nat ->
                    blocks (IRWhileLoopEmitter.End loop written) !! b = blocks entered !! b)
    as Hstatic.
  { intros b Hb Hne1 Hne2. rewrite Hafter by lia. unfold f1. cbn [blocks].
    rewrite emit_lookup_other by (destruct Hcurt; lia). apply Hframet; lia. }
  assert (blocks (IRWhileLoopEmitter.End loop written) !! n = Some [Branch (n + 1)]) as H0.
  { rewrite Hstatic by lia. replace n with (n + 0)%nat at 1 by lia. by rewrite Hnew. }
  assert (blocks (IRWhileLoopEmitter.End loop written) !! (n + 3)%nat = Some []) as H3.
  { rewrite Hstatic by lia. by rewrite Hnew. }
  assert (blocks (IRWhileLoopEmitter.End loop written) !! currentBlock ft
          = (fun instrs => instrs ++ [branch]) <$> blocks ft !! currentBlock ft) as Hcond.
  { rewrite Hafter by (destruct Hcurt; lia). unfold f1. cbn [blocks].
    apply emit_lookup_current. }
  assert (blocks (IRWhileLoopEmitter.End loop written) !! currentBlock written
          = (fun instrs => instrs ++ [Branch (n + 1)]) <$> blocks written !! currentBlock written)
    as Hend by apply emit_lookup_current.
  assert (forall b, (b < n)%nat -> b <> cur ->
                    blocks (IRWhileLoopEmitter.End loop written) !! b = bs !! b) as Hold.
  { intros b Hb Hne. rewrite Hstatic by lia. unfold entered, l1. cbn [blocks].
    apply lookup_old_block; [lia | exact Hne]. }
  split; [reflexivity|]. split; [exact Hlene|]. split; [exact Hlen1|].
  split; [unfold IRWhileLoopEmitter.End, SetCurrentBlock, emit; cbn [blocks];
          apply length_alter|].
  do 5 (split; [reflexivity|]).
  split; [by rewrite Hnew|].
  split; [reflexivity|].
  split.
  { unfold f1. cbn [blocks]. rewrite emit_lookup_other by (destruct Hcurt; lia).
    rewrite Hframet by lia. by rewrite Hnew. }
  do 2 (split; [assumption|]).
  split; [exact Hcond|]. split; [exact Hend|].
  split; [intros b Hne; by apply emit_lookup_other|].
  split; [exact Hold|].
  cbn [currentBlock].
  split.
  { destruct (lookup_lt_is_Some_2 bs cur) as [old Hold']; [lia|].
    apply (successors_of _ _ old (Branch n)).
    rewrite Hstatic by lia. unfold entered, l1. cbn [blocks].
    rewrite lookup_branch_appended by lia. by rewrite Hold'. }
  split; [by apply (successors_of _ _ [] (Branch (n + 1)))|].
  split.
  { destruct (lookup_lt_is_Some_2 _ _ Hvalidt) as [old Hold'].
    apply (successors_of _ _ old branch). by rewrite Hcond, Hold'. }
  split.
  { destruct (lookup_lt_is_Some_2 _ _ Hvalid) as [old Hold'].
    apply (successors_of _ _ old (Branch (n + 1))). by rewrite Hend, Hold'. }
  split; [unfold successors; by rewrite H3|].
  reflexivity.
Qed.


(** *** Code that loops can hold *)

Lemma writes_intro (f1 f2 : IRFunctionEmitter) :
  (length (blocks f1) <= length (blocks f2))%nat ->
  (forall b, (b < length (blocks f1))%nat -> b <> currentBlock f1 ->
             blocks f2 !! b = blocks f1 !! b) ->
  (currentBlock f2 = currentBlock f1 \/ (length (blocks f1) <= currentBlock f2)%nat) ->
  (currentBlock f2 < length (blocks f2))%nat ->
  writes f1 f2 = true.
Proof.
  intros Hlen Hframe Hcur Hvalid. unfold writes. rewrite !andb_true_iff. repeat split.
  - by apply Nat.leb_le.
  - apply forallb_forall. intros b Hb. apply list_elem_of_In, elem_of_seq in Hb.
    apply orb_true_iff. destruct (decide (b = currentBlock f1)) as [->|Hne].
    + left. apply Nat.eqb_refl.
    + right. apply bool_decide_eq_true_2, Hframe; [lia | exact Hne].
  - apply orb_true_iff. destruct Hcur as [->|Hge]; [left; apply Nat.eqb_refl|].
    right. by apply Nat.leb_le.
  - by apply Nat.ltb_lt.
Qed.

(** An instruction for the current block. *)
Lemma writes_emit (f : IRFunctionEmitter) (i : Instruction) :
  (currentBlock f < length (blocks f))%nat -> writes f (emit f i) = true.
Proof.
  intros Hcur. apply writes_intro.
  - unfold emit. cbn [blocks]. by rewrite length_alter.
  - intros b _ Hne. by apply emit_lookup_other.
  - by left.
  - unfold emit. cbn [blocks currentBlock]. by rewrite length_alter.
Qed.

(** Code after code. *)
Lemma writes_trans (f1 f2 f3 : IRFunctionEmitter) :
  writes f1 f2 = true -> writes f2 f3 = true -> writes f1 f3 = true.
Proof.
  intros H12 H23.
  destruct (writes_spec f1 f2 H12) as (Hlen1 & Hframe1 & Hcur1 & Hvalid1).
  destruct (writes_spec f2 f3 H23) as (Hlen2 & Hframe2 & Hcur2 & Hvalid2).
  apply writes_intro.
  - lia.
  - intros b Hb Hne. rewrite Hframe2 by (destruct Hcur1; lia). by apply Hframe1.
  - destruct Hcur2 as [->|Hge]; [exact Hcur1 | right; lia].
  - exact Hvalid2.
Qed.

(** A for loop, whose body is such code, is such code: loops nest. *)
Lemma writes_for_loop (f : IRFunctionEmitter) (start max step : Operand)
      (body : IRForLoopEmitter.IRForLoopEmitter -> IRFunctionEmitter -> IRFunctionEmitter) :
  (currentBlock f < length (blocks f))%nat ->
  let begun := IRForLoopEmitter.BeginValues f start max step in
  writes begun.2 (body begun.1 begun.2) = true ->
  writes f (IRForLoopEmitter.End begun.1 (body begun.1 begun.2)) = true.
Proof.
  intros Hcur begun Hw.
  destruct (for_loop_wiring f start max step body Hcur Hw)
    as (Hlen1 & Hlen' & _ & _ & _ & _ & _ & _ & _ & _ & _ & _ & _ & _ & _ & Hold & _ & _ & _
        & _ & _ & _ & Hcur').
  destruct (writes_spec _ _ Hw) as (Hlen & _ & _ & _).
  fold begun in Hlen1, Hlen', Hold, Hcur'. rewrite Hlen1 in Hlen.
  apply writes_intro.
  - rewrite Hlen'. lia.
  - exact Hold.
  - right. rewrite Hcur'. lia.
  - rewrite Hcur', Hlen'. lia.
Qed.

(** A while loop, whose condition and body are such code, is such code. *)
Lemma writes_while_loop (f : IRFunctionEmitter) (condition : IRWhileLoopEmitter.Condition)
      (body : IRFunctionEmitter -> IRFunctionEmitter) :
  (currentBlock f < length (blocks f))%nat ->
  let created := IRWhileLoopEmitter.CreateBlocks f in
  let entered :=
    IRWhileLoopEmitter.EnterCondition created.1
      (IRWhileLoopEmitter.EmitInitialization created.1 created.2) in
  let begun := IRWhileLoopEmitter.BeginLambda f condition in
  writes entered (condition entered).2 = true ->
  writes begun.2 (body begun.2) = true ->
  writes f (IRWhileLoopEmitter.End begun.1 (body begun.2)) = true.
Proof.
  intros Hcur created entered begun Ht Hw.
  destruct (while_loop_wiring f condition body Hcur Ht Hw)
    as (_ & Hlene & Hlen1 & Hlen' & _ & _ & _ & _ & _ & _ & _ & _ & _ & _ & _ & _ & _ & Hold
        & _ & _ & _ & _ & _ & Hcur').
  destruct (writes_spec _ _ Ht) as (Hlent & _ & _ & _).
  destruct (writes_spec _ _ Hw) as (Hlen & _ & _ & _).
  fold created entered begun in Hlene, Hlen1, Hlen', Hold, Hcur', Hlent, Hlen.
  apply writes_intro.
  - rewrite Hlen'. lia.
  - exact Hold.
  - right. rewrite Hcur'. lia.
  - rewrite Hcur', Hlen'. lia.
Qed.





(** In the nested for loop, the outer body block does not branch to the
    increment itself: it branches to the initialization of the inner
    loop, and the block after the inner loop, where the body ends,
    branches to the outer increment. *)
Example nested_for_loop_body :
  let outer := IRForLoopEmitter.Begin BeginFunction 0 10 2 in
  let inner := IRForLoopEmitter.Begin outer.2 0 3 1 in
  let nested :=
    IRForLoopEmitter.End outer.1
      (IRForLoopEmitter.End inner.1
         (emit inner.2 (Use (IRForLoopEmitter.LoadIterationVariable outer.1)))) in
  IRForLoopEmitter.GetBodyBlock outer.1 = 3%nat /\
  successors nested 3 = [6%nat] /\
  successors nested 10 = [4%nat].
Proof. vm_compute. repeat split. Qed.

(** *** Running an emitted loop *)

(** More fuel does not change a run that finished. *)
Lemma run_more_fuel (fuel fuel' : nat) (f : IRFunctionEmitter) (b : BlockId)
      (rest : list Instruction) (m : Machine) (b' : BlockId) (m' : Machine) :
  run fuel f b rest m = Finished b' m' -> (fuel <= fuel')%nat ->
  run fuel' f b rest m = Finished b' m'.
Proof.
  revert fuel' b rest m. induction fuel as [|fuel IH]; intros fuel' b rest m Hrun Hle.
  - destruct rest; [by destruct fuel'|discriminate].
  - destruct rest as [|i rest]; [by destruct fuel'|].
    destruct fuel' as [|fuel']; [lia|]. cbn [run] in *.
    destruct i; try (apply IH; [exact Hrun | lia]).
    + destruct (blocks f !! target); [|discriminate]. apply IH; [exact Hrun | lia].
    + destruct (blocks f !! _); [|discriminate]. apply IH; [exact Hrun | lia].
Qed.

Lemma execute_more_fuel (fuel fuel' : nat) (f : IRFunctionEmitter) (b : BlockId)
      (m : Machine) :
  execute fuel f = Finished b m -> (fuel <= fuel')%nat -> execute fuel' f = Finished b m.
Proof.
  unfold execute. destruct (blocks f !! 0%nat); [|discriminate]. apply run_more_fuel.
Qed.

(** C7: the loop emitted by [Begin(0, 10, 2)], with a body that uses the
    iteration variable, run with enough fuel: the body sees 0, 2, 4, 6, 8
    in this order, it is entered five times, and the block after the
    loop, where [End] leaves the emitter, is entered once and is where
    the run ends. *)
Theorem for_loop_Begin_0_10_2 (fuel : nat) :
  (30 <= fuel)%nat ->
  let begun := IRForLoopEmitter.Begin BeginFunction 0 10 2 in
  let loop := begun.1 in
  let body := emit begun.2 (Use (IRForLoopEmitter.LoadIterationVariable loop)) in
  let f := IRForLoopEmitter.End loop body in
  let r := execute fuel f in
  used_values r = [0; 2; 4; 6; 8] /\
  visits r (IRForLoopEmitter.GetBodyBlock loop) = 5%nat /\
  visits r (IRForLoopEmitter._pAfterBlock loop) = 1%nat /\
  finished_at r = Some (IRForLoopEmitter._pAfterBlock loop) /\
  currentBlock f = IRForLoopEmitter._pAfterBlock loop.
Proof.
  intros Hfuel begun loop body f r.
  assert (finished_at (execute 30 f) = Some 5%nat /\
          used_values (execute 30 f) = [0; 2; 4; 6; 8] /\
          visits (execute 30 f) 3 = 5%nat /\
          visits (execute 30 f) 5 = 1%nat) as H30
    by (vm_compute; repeat split).
  destruct (execute 30 f) as [b m| |] eqn:Hrun;
    [|destruct H30 as [H30 _]; discriminate H30..].
  apply (execute_more_fuel 30 fuel) in Hrun; [|exact Hfuel].
  subst r. rewrite Hrun.
  destruct H30 as (Hat & Hused & Hbody & Hafter).
  split; [exact Hused|]. split; [exact Hbody|]. split; [exact Hafter|].
  split; [exact Hat|]. reflexivity.
Qed.

Lemma for_loop_Begin_0_10_2_witness :
  let begun := IRForLoopEmitter.Begin BeginFunction 0 10 2 in
  let loop := begun.1 in
  let body := emit begun.2 (Use (IRForLoopEmitter.LoadIterationVariable loop)) in
  let f := IRForLoopEmitter.End loop body in
  let r := execute 30 f in
  used_values r = [0; 2; 4; 6; 8] /\
  visits r (IRForLoopEmitter.GetBodyBlock loop) = 5%nat /\
  visits r (IRForLoopEmitter._pAfterBlock loop) = 1%nat /\
  finished_at r = Some (IRForLoopEmitter._pAfterBlock loop) /\
  currentBlock f = IRForLoopEmitter._pAfterBlock loop.
Proof. exact (for_loop_Begin_0_10_2 30 (le_n 30)). Defined.

(** *** Any for loop *)

Lemma for_program_blocks (a b c : Z) :
  blocks (for_program a b c) =
  [ [Branch 1];
    [Alloca 0; Store 0 (Literal a); Branch 2];
    [ConditionalBranch lessThan (LoadVariable 0) (Literal b) 3 5];
    [Use (LoadVariable 0); Branch 4];
    [OperationAndUpdate 0 (Literal c); Branch 2];
    [] ].
Proof. reflexivity. Qed.

Lemma wrap32_small (z : Z) : - 2 ^ 31 <= z < 2 ^ 31 -> wrap32 z = z.
Proof. intros H. unfold wrap32. rewrite Z.mod_small; lia. Qed.

Lemma run_nil (fuel : nat) (f : IRFunctionEmitter) (b : BlockId) (m : Machine) :
  run fuel f b [] m = Finished b m.
Proof. by destruct fuel. Qed.

Lemma for_loop_from_condition (b c : Z) (a : Z) (n : nat) :
  forall (x : Z) (m : Machine) (fuel : nat),
    env m 0%nat = x ->
    (forall k, (k < n)%nat -> x + Z.of_nat k * c < b) ->
    b <= x + Z.of_nat n * c ->
    (forall k, (0 < k <= n)%nat -> - 2 ^ 31 <= x + Z.of_nat k * c < 2 ^ 31) ->
    (5 * n + 1 <= fuel)%nat ->
    exists m',
      run fuel (for_program a b c) 2
          [ConditionalBranch lessThan (LoadVariable 0) (Literal b) 3 5] m
      = Finished 5 m' /\
      used m' = used m ++ iteration_values n x c /\
      entered m' = entered m ++ concat (replicate n [3; 4; 2]%nat) ++ [5%nat].
Proof.
  induction n as [|n IH]; intros x m fuel Hx Hlt Hge Hwrap Hfuel.
  - destruct fuel as [|fuel]; [lia|]. cbn [run]. cbn [eval compare]. rewrite Hx.
    rewrite (proj2 (Z.ltb_ge x b)) by lia.
    rewrite for_program_blocks. cbn [lookup list_lookup]. rewrite run_nil.
    eexists. split; [reflexivity|]. cbn. by rewrite app_nil_r.
  - do 5 (destruct fuel as [|fuel]; [lia|]).
    cbn [run]. cbn [eval compare]. rewrite Hx.
    rewrite (proj2 (Z.ltb_lt x b)) by (specialize (Hlt 0%nat); lia).
    rewrite for_program_blocks. cbn [lookup list_lookup run eval enter set env used entered].
    rewrite Hx.
    rewrite wrap32_small by (specialize (Hwrap 1%nat); lia).
    edestruct (IH (x + c)) as (m' & Hrun & Hused & Hentered); cycle 5.
    + exists m'. split; [exact Hrun|]. rewrite Hused, Hentered. cbn.
      rewrite <- !app_assoc. done.
    + reflexivity.
    + intros k Hk. specialize (Hlt (S k)). lia.
    + lia.
    + intros k Hk. specialize (Hwrap (S k)). lia.
    + lia.
Qed.

Lemma count_loop_blocks (n : nat) (b : BlockId) :
  length (filter (fun b' => b' = b) (concat (replicate n [3; 4; 2]%nat))) =
  (if decide (b = 3 \/ b = 4 \/ b = 2)%nat then n else 0)%nat.
Proof.
  induction n as [|n IH]; [by case_decide|].
  cbn [replicate concat]. rewrite list.filter_app, length_app, IH.
  rewrite !filter_cons, filter_nil.
  repeat case_decide; cbn [length]; lia.
Qed.

Lemma visits_for_loop (n : nat) (m : Machine) (at_block b : BlockId) :
  entered m = ([0; 1; 2] ++ concat (replicate n [3; 4; 2]) ++ [5])%nat ->
  visits (Finished at_block m) b =
  ((if decide (b = 0 \/ b = 1 \/ b = 2) then 1 else 0)
   + (if decide (b = 3 \/ b = 4 \/ b = 2) then n else 0)
   + (if decide (b = 5) then 1 else 0))%nat.
Proof.
  intros Hentered. unfold visits. rewrite Hentered.
  rewrite !list.filter_app, !length_app, count_loop_blocks.
  rewrite !filter_cons, filter_nil.
  repeat case_decide; cbn [length]; lia.
Qed.

(** X13: A for loop from [iStartAt] with [n] iterations before the iteration
    variable reaches [iMaxValue], none of which overflows: the body sees
    the [n] iteration values in ascending order, and the block after the
    loop is entered once, at the end. *)
Theorem for_loop_iterations (iStartAt iMaxValue stepSize : Z) (n fuel : nat) :
  (forall k, (k < n)%nat -> iStartAt + Z.of_nat k * stepSize < iMaxValue) ->
  iMaxValue <= iStartAt + Z.of_nat n * stepSize ->
  (forall k, (0 < k <= n)%nat ->
             - 2 ^ 31 <= iStartAt + Z.of_nat k * stepSize < 2 ^ 31) ->
  (5 * n + 5 <= fuel)%nat ->
  let r := execute fuel (for_program iStartAt iMaxValue stepSize) in
  used_values r = iteration_values n iStartAt stepSize /\
  visits r 3 = n /\
  visits r 5 = 1%nat /\
  finished_at r = Some 5%nat.
Proof.
  intros Hlt Hge Hwrap Hfuel r. subst r. unfold execute.
  rewrite for_program_blocks. cbn [lookup list_lookup].
  do 4 (destruct fuel as [|fuel]; [lia|]).
  cbn [run]. rewrite for_program_blocks.
  cbn [lookup list_lookup run eval enter set env used entered].
  edestruct (for_loop_from_condition iMaxValue stepSize iStartAt n iStartAt)
    as (m' & Hrun & Hused & Hentered); cycle 5.
  - rewrite Hrun. cbn in Hused, Hentered.
    rewrite (visits_for_loop n m' 5 3), (visits_for_loop n m' 5 5) by exact Hentered.
    cbn [used_values finished_at]. rewrite Hused.
    repeat case_decide; try lia. done.
  - reflexivity.
  - exact Hlt.
  - exact Hge.
  - exact Hwrap.
  - lia.
Qed.

(** [Begin(0, 10, 2)] has five iterations. *)
Lemma for_loop_iterations_witness :
  let r := execute 30 (for_program 0 10 2) in
  used_values r = [0; 2; 4; 6; 8] /\
  visits r 3 = 5%nat /\ visits r 5 = 1%nat /\ finished_at r = Some 5%nat.
Proof.
  apply (for_loop_iterations 0 10 2 5 30).
  - intros k Hk. lia.
  - lia.
  - intros k Hk. lia.
  - lia.
Defined.

End EmittersSpec.

Module StlContainerIteratorGetSpec.
Import Utilities StlContainerIterator StlContainerIteratorGet.

Lemma iterate_from {ValueType} (container : list ValueType) (k : nat) :
  forall (rest : list ValueType) (fuel : nat) (seen : list ValueType) (index : nat),
    drop k container = rest -> (k <= length container)%nat ->
    (length rest <= fuel)%nat ->
    iterate fuel
      (MakeStlContainerIteratorRange container (Z.of_nat k) (Z.of_nat (length container)))
      seen index
    = Some (seen ++ rest, (index + length rest)%nat).
Proof.
  intros rest. revert k. induction rest as [|x rest IH]; intros k fuel seen index Hdrop Hk Hfuel.
  - assert (k = length container) as ->.
    { apply (f_equal length) in Hdrop. rewrite length_drop in Hdrop. cbn in Hdrop. lia. }
    destruct fuel; cbn; unfold IsValid; cbn; rewrite Z.eqb_refl; cbn;
      by rewrite app_nil_r, Nat.add_0_r.
  - assert (k < length container)%nat as Hlt.
    { apply (f_equal length) in Hdrop. rewrite length_drop in Hdrop. cbn in Hdrop. lia. }
    destruct fuel as [|fuel]; [cbn in Hfuel; lia|].
    cbn [iterate]. unfold IsValid at 1. cbn [iterator MakeStlContainerIteratorRange _current _end].
    rewrite (proj2 (Z.eqb_neq _ _)) by lia. cbn [negb].
    unfold Get. cbn [iterator MakeStlContainerIteratorRange _current elements].
    rewrite (proj2 (Z.leb_le 0 _)) by lia. rewrite Nat2Z.id.
    assert (container !! k = Some x) as ->.
    { rewrite <- (Nat.add_0_r k), <- lookup_drop, Hdrop. reflexivity. }
    unfold Advance, Next, IsValid. cbn [iterator MakeStlContainerIteratorRange _current _end elements].
    rewrite (proj2 (Z.eqb_neq _ _)) by lia. cbn [negb].
    replace (Z.of_nat k + 1) with (Z.of_nat (S k)) by lia.
    change ({| iterator := {| _current := Z.of_nat (S k);
                               _end := Z.of_nat (length container) |};
               elements := container |})
      with (MakeStlContainerIteratorRange container (Z.of_nat (S k))
              (Z.of_nat (length container))).
    rewrite (IH (S k)); [| |lia|cbn in Hfuel; lia].
    + rewrite <- app_assoc. cbn. do 2 f_equal. lia.
    + apply (f_equal (drop 1)) in Hdrop. rewrite drop_drop in Hdrop.
      replace (k + 1)%nat with (S k) in Hdrop by lia. exact Hdrop.
Qed.

(** X1: The client loop over any container: [Get] returns the elements of
    the container in order, none read outside it, and the loop ends
    after as many steps as the container has elements. *)
Theorem iterate_whole_container {ValueType} (container : list ValueType) (fuel : nat) :
  (length container <= fuel)%nat ->
  iterate fuel (MakeStlContainerIteratorOver container) [] 0
  = Some (container, length container).
Proof.
  intros Hfuel. unfold MakeStlContainerIteratorOver.
  change 0 with (Z.of_nat 0).
  rewrite (iterate_from container 0 container fuel [] 0%nat);
    [reflexivity | reflexivity | lia | exact Hfuel].
Qed.

Lemma iterate_whole_container_witness :
  iterate 6 (MakeStlContainerIteratorOver [1; 2; 3; 4; 5; 6]) [] 0
  = Some ([1; 2; 3; 4; 5; 6], 6%nat).
Proof. apply (iterate_whole_container [1; 2; 3; 4; 5; 6] 6). cbn. lia. Defined.

Lemma NextN_position (n : nat) (it : StlContainerIteratorBase) :
  _current it <= _end it ->
  NextN n it = {| _current := Z.min (_current it + Z.of_nat n) (_end it);
                  _end := _end it |}.
Proof.
  intros Hle. induction n as [|n IH].
  - destruct it as [c e]. cbn in *. f_equal. lia.
  - change (NextN (S n) it) with (Next (NextN n it)). rewrite IH.
    unfold Next, IsValid. cbn [_current _end].
    destruct (Z.eqb_spec (Z.min (_current it + Z.of_nat n) (_end it)) (_end it));
      cbn; f_equal; lia.
Qed.

(** X2: [IsValid] says that items are left, and [n] calls of [Next] take [n]
    items off what is left, stopping at none. *)
Theorem NumItemsLeft_counts_down (it : StlContainerIteratorBase) (n : nat) :
  0 <= _end it - _current it < 2 ^ 64 ->
  (IsValid it = true <-> 0 < NumItemsLeft it) /\
  NumItemsLeft (NextN n it) = Z.max 0 (NumItemsLeft it - Z.of_nat n).
Proof.
  intros Hd. unfold NumItemsLeft, to_size_t, size_t_modulus, IsValid. split.
  - rewrite Z.mod_small by lia. rewrite negb_true_iff, Z.eqb_neq. lia.
  - rewrite NextN_position by lia. cbn. rewrite !Z.mod_small; lia.
Qed.

Lemma NumItemsLeft_counts_down_witness :
  let it := MakeStlContainerIterator 2 6 in
  (IsValid it = true <-> 0 < NumItemsLeft it) /\
  NumItemsLeft (NextN 3 it) = Z.max 0 (NumItemsLeft it - 3).
Proof.
  apply (NumItemsLeft_counts_down (MakeStlContainerIterator 2 6) 3). cbn. lia.
Defined.

Lemma AdvanceN_iterator {ValueType} (n : nat) (it : StlContainerIterator ValueType) :
  iterator (AdvanceN n it) = NextN n (iterator it) /\
  elements (AdvanceN n it) = elements it.
Proof.
  induction n as [|n [IH1 IH2]]; [done|].
  change (AdvanceN (S n) it) with (Advance (AdvanceN n it)).
  change (NextN (S n) (iterator it)) with (Next (NextN n (iterator it))).
  unfold Advance. cbn [iterator elements]. by rewrite IH1, IH2.
Qed.

(** X3: After [n] calls of [Next] on an iterator over a container, [Get]
    returns element [n] of the container; from the end on it reads
    outside the container, whatever [n]: [Get] does not test [IsValid]. *)
Theorem Get_after_Next {ValueType} (container : list ValueType) (n : nat) :
  let it := AdvanceN n (MakeStlContainerIteratorOver container) in
  Get it = container !! n /\
  (IsValid (iterator it) = false <-> Get it = None).
Proof.
  intros it. subst it.
  destruct (AdvanceN_iterator n (MakeStlContainerIteratorOver container)) as [Hit Hel].
  unfold Get. rewrite Hit, Hel. cbn [MakeStlContainerIteratorOver
    MakeStlContainerIteratorRange iterator elements].
  rewrite NextN_position by (cbn; lia). cbn [_current _end]. unfold IsValid. cbn [_current _end].
  rewrite (proj2 (Z.leb_le 0 _)) by lia.
  destruct (Nat.lt_ge_cases n (length container)) as [Hlt|Hge].
  - replace (Z.to_nat (Z.min (0 + Z.of_nat n) (Z.of_nat (length container)))) with n by lia.
    split; [reflexivity|].
    rewrite negb_false_iff, Z.eqb_eq, lookup_ge_None. lia.
  - replace (Z.to_nat (Z.min (0 + Z.of_nat n) (Z.of_nat (length container))))
      with (length container) by lia.
    rewrite (lookup_ge_None_2 container n) by lia.
    rewrite (lookup_ge_None_2 container (length container)) by lia.
    split; [reflexivity|].
    rewrite negb_false_iff, Z.eqb_eq. split; [done|]. lia.
Qed.

End StlContainerIteratorGetSpec.

Module LayerFamiliesSpec.
Import Utilities NeuralLayers LayerFamilies.

(** X4: [GetLayerType] and the downcasts agree: a layer reports a layer type
    exactly when it is of the class that overrides [GetLayerType] with
    that type, so that [As] to this class returns the layer. *)
Theorem GetLayerType_selects_downcast (l : LayerObject) (t : LayerType) :
  (GetLayerType l = Some t <-> Is (classOf t) l = true) /\
  (GetLayerType l = Some t -> As (classOf t) l = Ok l).
Proof.
  destruct l as [a c]. unfold GetLayerType, Is, As, dynamic_cast. cbn [dynamicClass].
  destruct c, t; cbn; (split; [split|]); intros; try done.
Qed.

Lemma GetLayerType_selects_downcast_witness :
  let l := {| address := 7; dynamicClass := PReLUActivationLayer |} in
  Is ActivationLayer l = true /\ As ActivationLayer l = Ok l.
Proof.
  intros l.
  destruct (GetLayerType_selects_downcast l activation) as [[Hto _] Has].
  split; [apply Hto | apply Has]; reflexivity.
Defined.

Lemma bases_transitive (c T B : LayerClass) :
  T ∈ bases c -> B ∈ bases T -> B ∈ bases c.
Proof.
  intros HT HB.
  apply (bool_decide_eq_true_2 (T ∈ bases c)) in HT.
  apply (bool_decide_eq_true_2 (B ∈ bases T)) in HB.
  apply (bool_decide_eq_true_1 (B ∈ bases c)).
  destruct c, T; try discriminate HT; destruct B; try discriminate HB; reflexivity.
Qed.

(** X5: Upcasts never fail: a layer that is of class [T] is of every class
    [T] derives from, among them [Layer], and [As] to such a class
    returns the layer itself. *)
Theorem As_upcast (l : LayerObject) (T B : LayerClass) :
  Is T l = true -> derives_from T B = true ->
  As B l = Ok l /\ As Layer l = Ok l.
Proof.
  intros HT HB. split.
  - revert HT HB. unfold Is, As, dynamic_cast, derives_from.
    destruct (decide (T ∈ bases (dynamicClass l))) as [HT|]; [|discriminate].
    intros _ HB%bool_decide_eq_true_1.
    by rewrite (decide_True (P := B ∈ bases (dynamicClass l)))
      by (by eapply bases_transitive).
  - unfold As, dynamic_cast. destruct l as [a c]. by destruct c.
Qed.

Lemma As_upcast_witness :
  let l := {| address := 7; dynamicClass := LeakyReLUActivationLayer |} in
  As ActivationLayer l = Ok l /\ As Layer l = Ok l.
Proof.
  intros l. apply (As_upcast l LeakyReLUActivationLayer ActivationLayer); reflexivity.
Defined.

End LayerFamiliesSpec.

Module HostMemorySpec.
Import Utilities Value ValueSpec.

(** A store leaves the other cells as they were, and succeeds on an
    allocated cell. *)
Lemma load_store_other (h h' : Heap) (p q : Pointer) (x : Z) :
  store h p x = Some h' -> block q <> block p \/ cell q <> cell p ->
  load h' q = load h q.
Proof.
  intros Hst Hne. destruct (decide (block q = block p)) as [Hb|Hb].
  - destruct Hne as [Hne|Hne]; [done|].
    unfold store in Hst. unfold load. rewrite Hb.
    destruct (h !! block p) as [b|] eqn:Hblk; [|discriminate].
    destruct (0 <=? cell p) eqn:Hc; [|discriminate].
    destruct (Z.to_nat (cell p) <? length b)%nat eqn:Hlt; [|discriminate].
    cbn [andb] in Hst. injection Hst as <-.
    rewrite list_lookup_insert_eq by (by eapply lookup_lt_Some).
    destruct (0 <=? cell q) eqn:Hq; [|reflexivity].
    apply Z.leb_le in Hc, Hq. apply list_lookup_insert_ne. lia.
  - apply load_same_block. by eapply store_other_block.
Qed.

Lemma store_allocated (h : Heap) (p : Pointer) (x : Z) :
  is_Some (load h p) -> exists h', store h p x = Some h'.
Proof.
  unfold load, store. intros [y Hy].
  destruct (h !! block p) as [b|]; [|discriminate].
  destruct (0 <=? cell p); [|discriminate]. cbn [andb].
  apply lookup_lt_Some in Hy. rewrite (proj2 (Nat.ltb_lt _ _) Hy). eauto.
Qed.

Lemma load_store_is_Some (h h' : Heap) (p q : Pointer) (x : Z) :
  store h p x = Some h' -> is_Some (load h q) -> is_Some (load h' q).
Proof.
  intros Hst Hq.
  destruct (decide (block q = block p /\ cell q = cell p)) as [[Hb Hc]|Hne].
  - replace q with p by (destruct p, q; cbn in *; congruence).
    rewrite (load_store_eq _ _ _ _ Hst). eauto.
  - rewrite (load_store_other h h' p q x Hst); [done|].
    destruct (decide (block q = block p)); [right|left]; intuition.
Qed.

Lemma advance_advance (p : Pointer) (a b : Z) : advance (advance p a) b = advance p (a + b).
Proof. unfold advance. cbn. f_equal. lia. Qed.

End HostMemorySpec.

Module CompilerSpec.
Import Utilities Value ValueSpec HostMemorySpec Compiler.

(** *** Ranges of memory *)

Lemma allocated_spec (h : Heap) (p : Pointer) (n i : Z) :
  allocated h p n = true -> 0 <= i < n -> is_Some (load h (advance p i)).
Proof.
  unfold allocated. rewrite forallb_forall. intros Hall Hi.
  apply (bool_decide_eq_true_1 _). apply Hall.
  apply list_elem_of_In, range_spec, Hi.
Qed.

Lemma read_range_from (h : Heap) (p : Pointer) (n start : nat) :
  (forall i, (start <= i < start + n)%nat -> is_Some (load h (advance p (Z.of_nat i)))) ->
  exists values,
    mapM (fun i : nat => load h (advance p (Z.of_nat i))) (seq start n) = Some values /\
    length values = n /\
    forall i, (i < n)%nat -> values !! i = load h (advance p (Z.of_nat (start + i))).
Proof.
  revert start. induction n as [|n IH]; intros start Hall.
  - exists []. split; [reflexivity|]. split; [reflexivity|]. intros; lia.
  - destruct (Hall start) as [x Hx]; [lia|].
    destruct (IH (S start)) as (values & Hmap & Hlen & Hval); [intros; apply Hall; lia|].
    exists (x :: values). cbn [seq mapM]. rewrite Hx. cbn. rewrite Hmap. cbn.
    split; [reflexivity|]. split; [by rewrite Hlen|].
    intros [|i] Hi; cbn.
    + by rewrite Nat.add_0_r.
    + rewrite Hval by lia. do 3 f_equal. lia.
Qed.

Lemma read_range_allocated (h : Heap) (p : Pointer) (n : nat) :
  (forall i, 0 <= i < Z.of_nat n -> is_Some (load h (advance p i))) ->
  exists values,
    read_range h p n = Some values /\ length values = n /\
    forall i, (i < n)%nat -> values !! i = load h (advance p (Z.of_nat i)).
Proof.
  intros Hall. apply (read_range_from h p n 0). intros i Hi. apply Hall. lia.
Qed.

Lemma write_range_allocated (values : list Z) :
  forall (h : Heap) (p : Pointer),
    (forall i, 0 <= i < Z.of_nat (length values) -> is_Some (load h (advance p i))) ->
    exists h',
      write_range h p values = Some h' /\
      (forall i, (i < length values)%nat ->
                 load h' (advance p (Z.of_nat i)) = values !! i) /\
      (forall q, ~ (block q = block p /\
                    cell p <= cell q < cell p + Z.of_nat (length values)) ->
                 load h' q = load h q).
Proof.
  induction values as [|x values IH]; intros h p Hall.
  - exists h. split; [reflexivity|]. split; [cbn; intros; lia | done].
  - assert (is_Some (load h p)) as Hp.
    { specialize (Hall 0). unfold advance in Hall. rewrite Z.add_0_r in Hall.
      destruct p. apply Hall. cbn. lia. }
    destruct (store_allocated h p x Hp) as [h1 Hst].
    destruct (IH h1 (advance p 1)) as (h' & Hwr & Hin & Hout).
    { intros i Hi. rewrite advance_advance.
      eapply load_store_is_Some; [exact Hst|]. apply Hall. cbn [length]. lia. }
    exists h'. cbn [write_range]. rewrite Hst. split; [exact Hwr|]. split.
    + intros [|i] Hi.
      * cbn. rewrite Hout by (cbn; lia).
        unfold advance. rewrite Z.add_0_r. destruct p. cbn. by apply load_store_eq in Hst.
      * cbn [lookup list_lookup]. rewrite <- Hin by (cbn in Hi; lia).
        rewrite advance_advance. do 2 f_equal. lia.
    + intros q Hq. rewrite Hout.
      * eapply load_store_other; [exact Hst|].
        destruct (decide (block q = block p)); [right|by left].
        intros Hc. apply Hq. cbn [length]. lia.
      * intros [Hb Hc]. apply Hq. cbn in *. split; [done|]. lia.
Qed.

(** *** The operations *)

Lemma byteCount_small (n sizeofT : Z) :
  0 < sizeofT -> 0 <= n -> n * sizeofT < 2 ^ 31 ->
  byteCount n sizeofT = n * sizeofT /\
  element_count sizeofT (n * sizeofT) = Some (Z.to_nat n).
Proof.
  intros Hs Hn Hsmall. split.
  - unfold byteCount, to_size_t, size_t_modulus.
    assert (n < 2 ^ 31) by nia.
    rewrite (Z.mod_small n) by lia. rewrite Z.mod_small by lia.
    apply EmittersSpec.wrap32_small. lia.
  - unfold element_count.
    rewrite (proj2 (Z.ltb_lt 0 sizeofT)) by lia.
    rewrite (proj2 (Z.leb_le 0 (n * sizeofT))) by nia.
    rewrite Z_mod_mult, Z.eqb_refl. cbn. by rewrite Z_div_mult by lia.
Qed.

Lemma run_transfer (copy : bool) (sizeofT : Z) (h : Heap) (src dest : Pointer) (n : Z) :
  0 < sizeofT -> 0 <= n -> n * sizeofT < 2 ^ 31 ->
  (forall i, 0 <= i < n -> is_Some (load h (advance src i))) ->
  (forall i, 0 <= i < n -> is_Some (load h (advance dest i))) ->
  (copy = true -> block src <> block dest) ->
  exists h',
    run_operation sizeofT h
      ((if copy then EmitMemCopy else EmitMemMove) src dest (byteCount n sizeofT)) = Ok h' /\
    transferred h h' src dest n.
Proof.
  intros Hs Hn Hsmall Hsrc Hdest Hcopy.
  destruct (byteCount_small n sizeofT Hs Hn Hsmall) as [-> Hcount].
  destruct (read_range_allocated h src (Z.to_nat n)) as (values & Hread & Hlen & Hval).
  { intros i Hi. apply Hsrc. lia. }
  destruct (write_range_allocated values h dest) as (h' & Hwrite & Hin & Hout).
  { intros i Hi. apply Hdest. lia. }
  exists h'. split.
  - assert (run_operation sizeofT h (EmitMemMove src dest (n * sizeofT)) = Ok h') as Hmove
      by (cbn; by rewrite Hcount, Hread, Hwrite).
    destruct copy; [|exact Hmove].
    cbn. rewrite Hcount. unfold overlap.
    rewrite bool_decide_eq_false_2 by (by apply Hcopy). cbn.
    by rewrite Hread, Hwrite.
  - split.
    + intros i Hi. replace i with (Z.of_nat (Z.to_nat i)) by lia.
      rewrite Hin, Hval by lia. reflexivity.
    + intros q Hq. apply Hout. rewrite Hlen. intros [Hb Hc]. apply Hq. split; [done|]. lia.
Qed.

(** *** ShiftAndUpdate *)

(** X6: [ShiftAndUpdate] on a buffer of [bufferCount] elements, new data and
    (when [pShiftedData] is not null) a place for the shifted-out
    elements, each in an allocation of its own: the emitted operations
    run without fault; afterwards the buffer holds its former elements
    from [shiftCount] on, followed by the first [shiftCount] elements of
    the new data, the place for the shifted-out elements holds the first
    [shiftCount] former elements of the buffer, and nothing else has
    changed.  One [MemMove] is emitted when [shiftCount < bufferCount],
    for the elements that stay, and none when the whole buffer is
    replaced. *)
Theorem ShiftAndUpdate_shifts (sizeofT : Z) (h : Heap) (pBuffer pNewData : Pointer)
        (pShiftedData : option Pointer) (bufferCount shiftCount : Z) :
  0 < sizeofT -> 0 <= shiftCount <= bufferCount -> bufferCount * sizeofT < 2 ^ 31 ->
  allocated h pBuffer bufferCount = true ->
  allocated h pNewData shiftCount = true ->
  block pNewData <> block pBuffer ->
  (forall ps, pShiftedData = Some ps ->
              allocated h ps shiftCount = true /\
              block ps <> block pBuffer /\ block ps <> block pNewData) ->
  exists ops h',
    ShiftAndUpdate sizeofT (Some pBuffer) bufferCount shiftCount (Some pNewData) pShiftedData
      = Ok ops /\
    run_operations sizeofT h ops = Ok h' /\
    List.filter is_move ops
    = (if shiftCount <? bufferCount
       then [EmitMemMove (advance pBuffer shiftCount) (advance pBuffer 0)
                         (byteCount (bufferCount - shiftCount) sizeofT)]
       else []) /\
    (forall i, 0 <= i < bufferCount - shiftCount ->
               load h' (advance pBuffer i) = load h (advance pBuffer (shiftCount + i))) /\
    (forall i, 0 <= i < shiftCount ->
               load h' (advance pBuffer (bufferCount - shiftCount + i))
               = load h (advance pNewData i)) /\
    (forall ps i, pShiftedData = Some ps -> 0 <= i < shiftCount ->
                  load h' (advance ps i) = load h (advance pBuffer i)) /\
    (forall q, block q <> block pBuffer ->
               (forall ps, pShiftedData = Some ps -> block q <> block ps) ->
               load h' q = load h q).
Proof.
  intros Hs Hcounts Hsmall Hbuf Hnew Hnb Hshifted.
  assert (forall i, 0 <= i < bufferCount -> is_Some (load h (advance pBuffer i))) as Hbuf'
    by (intros; by eapply allocated_spec).
  assert (forall i, 0 <= i < shiftCount -> is_Some (load h (advance pNewData i))) as Hnew'
    by (intros; by eapply allocated_spec).
  assert (shiftCount * sizeofT < 2 ^ 31) as Hsmall1 by nia.
  assert ((bufferCount - shiftCount) * sizeofT < 2 ^ 31) as Hsmall2 by nia.
  assert (Emitters.wrap32 (bufferCount - shiftCount) = bufferCount - shiftCount) as Hwrap
    by (apply EmittersSpec.wrap32_small; nia).
  (* the shifted-out elements are saved *)
  assert (exists saved h1,
            (if bool_decide (is_Some pShiftedData)
             then MemCopy sizeofT (Some pBuffer) 0 pShiftedData 0 shiftCount
             else Ok []) = Ok saved /\
            run_operations sizeofT h saved = Ok h1 /\
            List.filter is_move saved = [] /\
            (forall ps i, pShiftedData = Some ps -> 0 <= i < shiftCount ->
                          load h1 (advance ps i) = load h (advance pBuffer i)) /\
            (forall q, (forall ps, pShiftedData = Some ps -> block q <> block ps) ->
                       load h1 q = load h q))
    as (saved & h1 & Hsaved & Hrun1 & Hnomove1 & Hps1 & Hframe1).
  { destruct pShiftedData as [ps|].
    - destruct (Hshifted ps eq_refl) as (Hps & Hpb & Hpn).
      assert (forall i, 0 <= i < shiftCount ->
                        is_Some (load h (advance (advance pBuffer 0) i))) as Hsrc
        by (intros i Hi; rewrite advance_advance; apply Hbuf'; lia).
      assert (forall i, 0 <= i < shiftCount ->
                        is_Some (load h (advance (advance ps 0) i))) as Hdest
        by (intros i Hi; rewrite advance_advance; by eapply allocated_spec).
      assert (true = true -> block (advance pBuffer 0) <> block (advance ps 0)) as Hcopy
        by (cbn; congruence).
      destruct (run_transfer true sizeofT h (advance pBuffer 0) (advance ps 0) shiftCount
                  Hs (proj1 Hcounts) Hsmall1 Hsrc Hdest Hcopy) as (h1 & Hrun & Hin & Hout).
      exists [EmitMemCopy (advance pBuffer 0) (advance ps 0) (byteCount shiftCount sizeofT)], h1.
      split; [reflexivity|]. split; [cbn [run_operations]; by rewrite Hrun|].
      split; [reflexivity|]. split.
      + intros ps' i [= <-] Hi. specialize (Hin i Hi).
        by rewrite !advance_advance in Hin.
      + intros q Hq. apply Hout. intros [Hb _]. by apply (Hq ps).
    - exists [], h. repeat split; try done. }
  assert (forall q, block q = block pBuffer \/ block q = block pNewData ->
                    load h1 q = load h q) as Hsame1.
  { intros q Hq. apply Hframe1. intros ps Hps.
    destruct (Hshifted ps Hps) as (_ & Hpb & Hpn). destruct Hq; congruence. }
  (* the rest of the buffer moves to its start *)
  assert (exists moved h2,
            (if shiftCount <? bufferCount
             then MemMove sizeofT (Some pBuffer) shiftCount 0
                          (Emitters.wrap32 (bufferCount - shiftCount))
             else Ok []) = Ok moved /\
            run_operations sizeofT h1 moved = Ok h2 /\
            List.filter is_move moved
            = (if shiftCount <? bufferCount
               then [EmitMemMove (advance pBuffer shiftCount) (advance pBuffer 0)
                                 (byteCount (bufferCount - shiftCount) sizeofT)]
               else []) /\
            transferred h1 h2 (advance pBuffer shiftCount) pBuffer (bufferCount - shiftCount))
    as (moved & h2 & Hmoved & Hrun2 & Hmove2 & Hin2 & Hout2).
  { destruct (Z.ltb_spec shiftCount bufferCount) as [Hlt|Hge].
    - assert (forall i, 0 <= i < bufferCount - shiftCount ->
                        is_Some (load h1 (advance (advance pBuffer shiftCount) i))) as Hsrc
        by (intros i Hi; rewrite advance_advance, Hsame1 by (by left); apply Hbuf'; lia).
      assert (forall i, 0 <= i < bufferCount - shiftCount ->
                        is_Some (load h1 (advance (advance pBuffer 0) i))) as Hdest
        by (intros i Hi; rewrite advance_advance, Hsame1 by (by left); apply Hbuf'; lia).
      assert (0 <= bufferCount - shiftCount) as Hn by lia.
      destruct (run_transfer false sizeofT h1 (advance pBuffer shiftCount) (advance pBuffer 0)
                  (bufferCount - shiftCount) Hs Hn Hsmall2 Hsrc Hdest ltac:(discriminate))
        as (h2 & Hrun & Hin & Hout).
      exists [EmitMemMove (advance pBuffer shiftCount) (advance pBuffer 0)
                          (byteCount (bufferCount - shiftCount) sizeofT)], h2.
      split; [cbn; by rewrite Hwrap|]. split; [cbn [run_operations]; by rewrite Hrun|].
      split; [reflexivity|]. split.
      + intros i Hi. specialize (Hin i Hi). by rewrite (advance_advance pBuffer 0) in Hin.
      + intros q Hq. apply Hout. cbn. intros [Hb Hc]. apply Hq. split; [done|].
        cbn in Hc. lia.
    - exists [], h1. split; [reflexivity|]. split; [reflexivity|].
      split; [reflexivity|]. split; [intros; lia|done]. }
  (* the new data goes to the end of the buffer *)
  assert (forall i, 0 <= i < shiftCount ->
                    is_Some (load h2 (advance (advance pNewData 0) i))) as Hsrc3.
  { intros i Hi. rewrite advance_advance, Hout2, Hsame1 by (cbn; intuition).
    apply Hnew'. lia. }
  assert (forall i, 0 <= i < shiftCount ->
                    is_Some (load h2 (advance (advance pBuffer (bufferCount - shiftCount)) i)))
    as Hdest3.
  { intros i Hi. rewrite advance_advance, Hout2, Hsame1 by (cbn; intuition lia).
    apply Hbuf'. lia. }
  destruct (run_transfer true sizeofT h2 (advance pNewData 0)
              (advance pBuffer (bufferCount - shiftCount)) shiftCount
              Hs (proj1 Hcounts) Hsmall1 Hsrc3 Hdest3 ltac:(cbn; congruence))
    as (h3 & Hrun3 & Hin3 & Hout3).
  exists (saved ++ moved ++ [EmitMemCopy (advance pNewData 0)
                              (advance pBuffer (bufferCount - shiftCount))
                              (byteCount shiftCount sizeofT)]), h3.
  split.
  { unfold ShiftAndUpdate. cbn [assert bool_decide obind].
    rewrite bool_decide_eq_true_2 by eauto. cbn [assert obind].
    rewrite (proj2 (Z.leb_le shiftCount bufferCount)) by lia. cbn [obind].
    rewrite Hsaved. cbn [obind]. rewrite Hmoved. cbn [obind].
    unfold MemCopy, PtrOffset. cbn [obind]. by rewrite Hwrap. }
  split.
  { assert (forall a b ha hb hc, run_operations sizeofT ha a = Ok hb ->
                                 run_operations sizeofT hb b = Ok hc ->
                                 run_operations sizeofT ha (a ++ b) = Ok hc) as Happ.
    { induction a as [|op a IHa]; intros b ha hb hc Ha Hb; cbn in *.
      - by injection Ha as ->.
      - destruct (run_operation sizeofT ha op); try discriminate. by eapply IHa. }
    eapply Happ; [exact Hrun1|]. eapply Happ; [exact Hrun2|].
    cbn [run_operations]. by rewrite Hrun3. }
  split.
  { rewrite !List.filter_app, Hnomove1, Hmove2. cbn. by rewrite app_nil_r. }
  split; [|split; [|split]].
  - intros i Hi. rewrite Hout3 by (cbn; lia). rewrite Hin2 by lia.
    rewrite advance_advance. apply Hsame1. by left.
  - intros i Hi. specialize (Hin3 i Hi). rewrite !advance_advance in Hin3.
    rewrite Hin3, Hout2, Hsame1 by (cbn; intuition). reflexivity.
  - intros ps i Hps Hi. destruct (Hshifted ps Hps) as (_ & Hpb & Hpn).
    rewrite Hout3, Hout2 by (cbn; intuition). by apply Hps1.
  - intros q Hq Hqs. rewrite Hout3, Hout2 by (cbn; intuition). by apply Hframe1.
Qed.

(** A buffer of six elements shifted by two. *)
Lemma ShiftAndUpdate_shifts_witness :
  let h := [[1; 2; 3; 4; 5; 6]; [7; 8]; [0; 0]] in
  exists ops h',
    ShiftAndUpdate 4 (Some {| block := 0; cell := 0 |}) 6 2
                   (Some {| block := 1; cell := 0 |}) (Some {| block := 2; cell := 0 |})
      = Ok ops /\
    run_operations 4 h ops = Ok h' /\
    List.filter is_move ops
    = [EmitMemMove {| block := 0; cell := 2 |} {| block := 0; cell := 0 |} 16] /\
    h' = [[3; 4; 5; 6; 7; 8]; [7; 8]; [1; 2]].
Proof.
  intros h.
  destruct (ShiftAndUpdate_shifts 4 h {| block := 0; cell := 0 |} {| block := 1; cell := 0 |}
              (Some {| block := 2; cell := 0 |}) 6 2)
    as (ops & h' & Hops & Hrun & Hmove & _); try (vm_compute; congruence); try lia.
  - intros ps [= <-]. vm_compute. repeat split; congruence.
  - exists ops, h'. split; [exact Hops|]. split; [exact Hrun|]. split; [exact Hmove|].
    vm_compute in Hops. injection Hops as <-. vm_compute in Hrun. congruence.
Defined.

End CompilerSpec.

Module MatrixOperatorsSpec.
Import Utilities Value ValueSpec MatrixOperators.
Import HostMemorySpec.

(** *** Loops over a range *)

Lemma for_each_seq (f : Z -> M unit) (I : Z -> Heap -> Prop) (len : nat) :
  forall (start : nat) (h : Heap),
    I (Z.of_nat start) h ->
    (forall k hk, Z.of_nat start <= k < Z.of_nat (start + len) -> I k hk ->
                  exists hk', f k hk = (hk', Ok tt) /\ I (k + 1) hk') ->
    exists h', for_each (Z.of_nat <$> seq start len) f h = (h', Ok tt) /\
               I (Z.of_nat (start + len)) h'.
Proof.
  induction len as [|len IH]; intros start h Hstart Hstep.
  - exists h. split; [reflexivity|]. by rewrite Nat.add_0_r.
  - destruct (Hstep (Z.of_nat start) h) as (h1 & Hf & HI); [lia|done|].
    destruct (IH (S start) h1) as (h' & Hrun & HI').
    { by replace (Z.of_nat (S start)) with (Z.of_nat start + 1) by lia. }
    { intros k hk Hk. apply Hstep. lia. }
    exists h'. split.
    + cbn [seq fmap list_fmap for_each]. unfold bind. by rewrite Hf.
    + by replace (start + S len)%nat with (S start + len)%nat by lia.
Qed.

(** A loop over [range n] that keeps an invariant indexed by the number of
    steps done. *)
Lemma for_each_range (n : Z) (f : Z -> M unit) (I : Z -> Heap -> Prop) (h : Heap) :
  I 0 h ->
  (forall k hk, 0 <= k < n -> I k hk -> exists hk', f k hk = (hk', Ok tt) /\ I (k + 1) hk') ->
  exists h', for_each (range n) f h = (h', Ok tt) /\ I (Z.max 0 n) h'.
Proof.
  intros H0 Hstep. unfold range.
  destruct (for_each_seq f I (Z.to_nat n) 0 h) as (h' & Hrun & HI); [done| |].
  - intros k hk Hk. apply Hstep. lia.
  - exists h'. split; [done|]. by replace (Z.max 0 n) with (Z.of_nat (0 + Z.to_nat n)) by lia.
Qed.

(** *** Entries *)

(** The entries inside the active region have pointers of their own, in
    the block of the matrix. *)
Lemma entry_pointer_injective (m : Matrix) (p : Pointer) (r c r' c' : Z) :
  Matrix_wf m = true -> _data (_value m) = Some p ->
  in_range m r c -> in_range m r' c' ->
  entry_pointer m r c = entry_pointer m r' c' -> r = r' /\ c = c'.
Proof.
  intros Hwf Hp. unfold in_range.
  matrix_cases m Hwf; unfold active_size, entry_pointer, Matrix_at; cbn in *; subst data;
    intros [Hr Hc] [Hr' Hc'] [= Heq].
  - assert (r = r') by (destruct (Z.lt_trichotomy r r') as [?|[?|?]]; [nia|done|nia]).
    subst r'. split; [done|lia].
  - assert (c = c') by (destruct (Z.lt_trichotomy c c') as [?|[?|?]]; [nia|done|nia]).
    subst c'. split; [lia|done].
Qed.

Lemma entry_pointer_block (m : Matrix) (p : Pointer) (r c : Z) :
  Matrix_wf m = true -> _data (_value m) = Some p ->
  exists q, entry_pointer m r c = Some q /\ block q = block p /\
            Matrix_at m r c = Ok {| _data := Some q; _type := _type (_value m);
                                    _layout := Some ScalarLayout |}.
Proof.
  intros Hwf Hp. destruct (Matrix_at_ok m p r c Hwf Hp) as (q & Hq & Hb).
  exists q. unfold entry_pointer. by rewrite Hq.
Qed.


Lemma entries_allocated_spec (h : Heap) (m : Matrix) (r c : Z) :
  entries_allocated h m = true -> in_range m r c ->
  exists q x, entry_pointer m r c = Some q /\ load h q = Some x.
Proof.
  unfold entries_allocated, in_range. intros Hall [Hr Hc].
  rewrite forallb_forall in Hall.
  specialize (Hall r (proj1 (list_elem_of_In _ _) (proj2 (range_spec _ _) Hr))).
  rewrite forallb_forall in Hall.
  specialize (Hall c (proj1 (list_elem_of_In _ _) (proj2 (range_spec _ _) Hc))).
  destruct (entry_pointer m r c) as [q|]; [|discriminate].
  apply bool_decide_eq_true_1 in Hall. destruct Hall as [x Hx]. eauto.
Qed.

(** *** One pass over the entries *)

Section update.
Variables (this : Matrix) (p : Pointer) (g : Z -> Z -> Z -> Z) (h : Heap).
Hypothesis Hwf : Matrix_wf this = true.
Hypothesis Hp : _data (_value this) = Some p.
Hypothesis Hall : entries_allocated h this = true.

Local Abbreviation updated := (updated this p g h).
Local Abbreviation updates_entry := (updates_entry this p g h).

Lemma updated_ext (done done' : Z -> Z -> bool) (hk : Heap) :
  (forall r c, in_range this r c -> done r c = done' r c) ->
  updated done hk -> updated done' hk.
Proof.
  intros Hext (Hframe & Hentries & Hrest). repeat split; [done| |done].
  intros r c Hrc. rewrite <- (Hext r c Hrc). by apply Hentries.
Qed.

Lemma updated_start : updated (fun _ _ => false) h.
Proof. by repeat split. Qed.

Lemma updated_step (done : Z -> Z -> bool) (hk hk' : Heap) (r0 c0 : Z) (q : Pointer) (old : Z) :
  updated done hk -> in_range this r0 c0 -> done r0 c0 = false ->
  entry_pointer this r0 c0 = Some q -> load h q = Some old ->
  store hk q (g r0 c0 old) = Some hk' ->
  updated (fun r c => done r c || (r =? r0) && (c =? c0)) hk'.
Proof.
  intros (Hframe & Hentries & Hrest) Hin Hdone Hq Hold Hst.
  destruct (entry_pointer_block this p r0 c0 Hwf Hp) as (q' & Hq' & Hblock & _).
  assert (q' = q) as -> by congruence.
  repeat split.
  - intros b Hb. rewrite (store_other_block _ _ _ _ _ Hst) by congruence. by apply Hframe.
  - intros r c Hrc. destruct (decide (r = r0 /\ c = c0)) as [[-> ->]|Hne].
    + rewrite Hdone, !Z.eqb_refl. cbn. unfold entry. rewrite Hq.
      by rewrite (load_store_eq _ _ _ _ Hst), Hold.
    + replace ((r =? r0) && (c =? c0)) with false by (symmetry; apply andb_false_iff; lia).
      rewrite orb_false_r, <- (Hentries r c Hrc). unfold entry.
      destruct (entry_pointer_block this p r c Hwf Hp) as (q1 & Hq1 & Hb1 & _).
      rewrite Hq1. apply (load_store_other _ _ _ _ _ Hst).
      right. intros Hcell. apply Hne.
      apply (entry_pointer_injective this p r c r0 c0 Hwf Hp Hrc Hin).
      rewrite Hq1, Hq. f_equal. destruct q1, q; cbn in *; congruence.
  - intros q1 Hb1 Hnot. rewrite <- (Hrest q1 Hb1 Hnot).
    apply (load_store_other _ _ _ _ _ Hst). right. intros Hcell.
    apply (Hnot r0 c0 Hin). rewrite Hq. f_equal. destruct q1, q; cbn in *; congruence.
Qed.

Lemma update_loop (fn : Z -> Z -> M unit) :
  updates_entry fn ->
  exists h',
    for_each (range (active_size this 0))
             (fun row => for_each (range (active_size this 1)) (fun column => fn row column)) h
    = (h', Ok tt) /\
    updated (fun _ _ => true) h'.
Proof.
  intros Hfn.
  destruct (for_each_range (active_size this 0)
              (fun row => for_each (range (active_size this 1)) (fun column => fn row column))
              (fun k hk => updated (fun r _ => r <? k) hk) h)
    as (h' & Hrun & Hdone).
  - eapply updated_ext; [|apply updated_start]. intros r c [Hr _]. symmetry. apply Z.ltb_ge. lia.
  - intros k hk Hk Hinv.
    destruct (for_each_range (active_size this 1) (fun column => fn k column)
                (fun c0 hc => updated (fun r c => (r <? k) || (r =? k) && (c <? c0)) hc) hk)
      as (hk' & Hrow & Hrowdone).
    + eapply updated_ext; [|exact Hinv]. intros r c [_ Hc]. cbn.
      replace (c <? 0) with false by (symmetry; apply Z.ltb_ge; lia).
      by rewrite andb_false_r, orb_false_r.
    + intros c0 hc Hc0 Hc.
      assert (in_range this k c0) as Hin by done.
      destruct (entries_allocated_spec h this k c0 Hall Hin) as (q & x0 & Hq & Hx0).
      assert (entry hc this k c0 = Some x0) as Hcur.
      { destruct Hc as (_ & Hentries & _). rewrite (Hentries k c0 Hin).
        rewrite !Z.ltb_irrefl, Z.eqb_refl. cbn. unfold entry. by rewrite Hq. }
      unfold entry in Hcur. rewrite Hq in Hcur.
      destruct (Hfn k c0 q x0 hc Hin Hq Hcur (proj1 Hc)) as (hc' & Hstep & Hst).
      exists hc'. split; [exact Hstep|].
      assert ((k <? k) || (k =? k) && (c0 <? c0) = false) as Hfresh.
      { rewrite !Z.ltb_irrefl. by rewrite andb_false_r. }
      pose proof (updated_step _ hc hc' k c0 q x0 Hc Hin Hfresh Hq Hx0 Hst) as Hnext.
      eapply updated_ext; [|exact Hnext].
      intros r c _. cbn.
      destruct (Z.ltb_spec r k), (Z.eqb_spec r k), (Z.ltb_spec c c0), (Z.eqb_spec c c0),
        (Z.ltb_spec c (c0 + 1)); cbn; try reflexivity; lia.
    + exists hk'. split; [exact Hrow|].
      eapply updated_ext; [|exact Hrowdone]. intros r c [_ Hc]. cbn.
      destruct (Z.ltb_spec r k), (Z.eqb_spec r k), (Z.ltb_spec c (Z.max 0 (active_size this 1))),
        (Z.ltb_spec r (k + 1)); cbn; try reflexivity; lia.
  - exists h'. split; [exact Hrun|].
    eapply updated_ext; [|exact Hdone]. intros r c [Hr _]. cbn. apply Z.ltb_lt. lia.
Qed.

End update.


Lemma For_wf (m : Matrix) (fn : Z -> Z -> M unit) :
  Matrix_wf m = true ->
  For m fn
  = for_each (range (active_size m 0))
             (fun row => for_each (range (active_size m 1)) (fun column => fn row column)).
Proof. intros Hwf. matrix_cases m Hwf; reflexivity. Qed.

(** *** The compound assignments *)

Lemma Scalar_compound_assign_ok (op : Z -> Z -> Z) (dst src : Value) (q qs : Pointer)
  (a b : Z) (h : Heap) :
  _data dst = Some q -> _data src = Some qs -> _type src = _type dst ->
  load h q = Some a -> load h qs = Some b ->
  exists h', Scalar_compound_assign op dst src h = (h', Ok tt) /\
             store h q (op a b) = Some h'.
Proof.
  intros Hq Hqs Htype Ha Hb.
  destruct (store_allocated h q (op a b)) as [h' Hst]; [by rewrite Ha|].
  exists h'. split; [|done].
  unfold Scalar_compound_assign, Scalar_get, Scalar_set, bind, load_cell, store_cell.
  rewrite bool_decide_eq_true_2 by done. cbn [negb].
  by rewrite Hq, Hqs, Ha, Hb, Hst.
Qed.

(** X9: [m += s], [m -= s], [m *= s] and [m /= s] for a scalar [s] of the
    element type of [m], stored outside the block of [m]: every entry of
    the active region becomes [op] of its old datum and the datum of [s];
    the rest of the block of [m] and the other blocks are unchanged. *)
Theorem scalar_compound_assign_entries (op : Z -> Z -> Z) (h : Heap) (this : Matrix)
  (s : Value) (p ps : Pointer) (x : Z) :
  Matrix_wf this = true -> _data (_value this) = Some p ->
  entries_allocated h this = true ->
  _data s = Some ps -> _type s = Type_ this -> block ps <> block p ->
  load h ps = Some x ->
  exists h',
    Matrix_scalar_compound_assign op this s h = (h', Ok tt) /\
    (forall r c, in_range this r c ->
                 entry h' this r c = (fun a => op a x) <$> entry h this r c) /\
    (forall b, b <> block p -> h' !! b = h !! b) /\
    (forall q, block q = block p ->
               (forall r c, in_range this r c -> entry_pointer this r c <> Some q) ->
               load h' q = load h q).
Proof.
  intros Hwf Hp Hall Hps Htype Hblock Hx.
  unfold Matrix_scalar_compound_assign.
  rewrite bool_decide_eq_true_2 by done. cbn [negb]. rewrite (For_wf this _ Hwf).
  destruct (update_loop this p (fun _ _ a => op a x) h Hwf Hp Hall
              (fun row column =>
                 let* dst := lift (Matrix_at this row column) in
                 Scalar_compound_assign op dst s))
    as (h' & Hrun & Hframe & Hentries & Hrest).
  - intros r c q old hk Hin Hq Hold Hother.
    destruct (entry_pointer_block this p r c Hwf Hp) as (q' & Hq' & _ & Hat).
    assert (q' = q) as -> by congruence.
    unfold bind, lift. rewrite Hat.
    apply (Scalar_compound_assign_ok op _ s q ps old x hk); [done|done|done|done|].
    rewrite <- Hx. apply load_same_block. by apply Hother.
  - exists h'. by repeat split.
Qed.

(** The entries of [this] and [m] after an entrywise compound assignment
    of [m] to [this]. *)
Lemma Matrix_compound_assign_entries (op : Z -> Z -> Z) (h : Heap) (this m : Matrix)
  (p pm : Pointer) :
  Matrix_wf this = true -> Matrix_wf m = true ->
  _data (_value this) = Some p -> _data (_value m) = Some pm ->
  block pm <> block p ->
  entries_allocated h this = true -> entries_allocated h m = true ->
  active_size m 0 = active_size this 0 -> active_size m 1 = active_size this 1 ->
  Type_ m = Type_ this ->
  exists h',
    Matrix_compound_assign op this m h = (h', Ok tt) /\
    (forall r c, in_range this r c ->
                 exists a b, entry h this r c = Some a /\ entry h m r c = Some b /\
                             entry h' this r c = Some (op a b) /\
                             entry h' m r c = Some b) /\
    (forall b, b <> block p -> h' !! b = h !! b) /\
    (forall q, block q = block p ->
               (forall r c, in_range this r c -> entry_pointer this r c <> Some q) ->
               load h' q = load h q).
Proof.
  intros Hwf Hwfm Hp Hpm Hblock Hall Hallm Hrows Hcols Htype.
  assert (forall r c, in_range this r c -> in_range m r c) as Hinm.
  { unfold in_range. intros r c. by rewrite Hrows, Hcols. }
  unfold Matrix_compound_assign.
  assert (sizes_mismatch this m = Ok false) as Hsizes.
  { apply sizes_mismatch_rows_equal; [done|done|].
    revert Hrows. clear -Hwf Hwfm.
    matrix_cases this Hwf; matrix_cases m Hwfm; unfold active_size, Rows; cbn -[to_size_t];
      by intros ->. }
  unfold bind at 1. unfold lift at 1. rewrite Hsizes.
  rewrite bool_decide_eq_true_2 by done. cbn [negb]. rewrite (For_wf m _ Hwfm), Hrows, Hcols.
  destruct (update_loop this p (fun r c a => op a (default 0 (entry h m r c))) h Hwf Hp Hall
              (fun row column =>
                 let* dst := lift (Matrix_at this row column) in
                 let* src := lift (Matrix_at m row column) in
                 Scalar_compound_assign op dst src))
    as (h' & Hrun & Hframe & Hentries & Hrest).
  - intros r c q old hk Hin Hq Hold Hother.
    destruct (entry_pointer_block this p r c Hwf Hp) as (q' & Hq' & _ & Hat).
    assert (q' = q) as -> by congruence.
    destruct (entry_pointer_block m pm r c Hwfm Hpm) as (qm & Hqm & Hbm & Hatm).
    destruct (entries_allocated_spec h m r c Hallm (Hinm r c Hin)) as (qm' & b & Hqm' & Hb).
    assert (qm' = qm) as -> by congruence.
    unfold bind, lift. rewrite Hat, Hatm. unfold entry. rewrite Hqm, Hb. cbn [default].
    apply (Scalar_compound_assign_ok op _ _ q qm old b hk); [done|done|done|done|].
    rewrite <- Hb. apply load_same_block. apply Hother. congruence.
  - exists h'. split; [exact Hrun|]. split; [|by split].
    intros r c Hin.
    destruct (entries_allocated_spec h this r c Hall Hin) as (q & a & Hq & Ha).
    destruct (entry_pointer_block m pm r c Hwfm Hpm) as (qm & Hqm & Hbm & _).
    destruct (entries_allocated_spec h m r c Hallm (Hinm r c Hin)) as (qm' & b & Hqm' & Hb).
    assert (qm' = qm) as -> by congruence.
    exists a, b. rewrite (Hentries r c Hin). unfold entry. rewrite Hq, Hqm, Ha, Hb.
    repeat split. rewrite <- Hb. apply load_same_block. apply Hframe. congruence.
Qed.


(** X7: [m1 += m2] for matrices of the same dimensions and element type in
    separate blocks: every entry of [m1] becomes the sum of the entries
    of [m1] and [m2] at its coordinates; [m2], the rest of the block of
    [m1] and the other blocks are unchanged. *)
Theorem add_assign_adds_entries (h : Heap) (this m : Matrix) (p pm : Pointer) :
  Matrix_wf this = true -> Matrix_wf m = true ->
  _data (_value this) = Some p -> _data (_value m) = Some pm ->
  block pm <> block p ->
  entries_allocated h this = true -> entries_allocated h m = true ->
  active_size m 0 = active_size this 0 -> active_size m 1 = active_size this 1 ->
  Type_ m = Type_ this ->
  exists h',
    Matrix_add_assign this m h = (h', Ok tt) /\
    (forall r c, in_range this r c ->
                 exists a b, entry h this r c = Some a /\ entry h m r c = Some b /\
                             entry h' this r c = Some (a + b) /\
                             entry h' m r c = Some b) /\
    (forall b, b <> block p -> h' !! b = h !! b) /\
    (forall q, block q = block p ->
               (forall r c, in_range this r c -> entry_pointer this r c <> Some q) ->
               load h' q = load h q).
Proof. exact (Matrix_compound_assign_entries Z.add h this m p pm). Qed.

Lemma add_assign_adds_entries_witness :
  let h := [[1; 2; 3; 4; 5; 6]; [10; 20; 30; 40; 50; 60]] in
  let this := hostMatrix 0 Int32 2 3 in
  let m := hostMatrix 1 Int32 2 3 in
  exists h',
    Matrix_add_assign this m h = (h', Ok tt) /\
    (forall r c, in_range this r c ->
                 exists a b, entry h this r c = Some a /\ entry h m r c = Some b /\
                             entry h' this r c = Some (a + b) /\
                             entry h' m r c = Some b) /\
    (forall b, b <> 0%nat -> h' !! b = h !! b) /\
    (forall q, block q = 0%nat ->
               (forall r c, in_range this r c -> entry_pointer this r c <> Some q) ->
               load h' q = load h q).
Proof.
  exact (add_assign_adds_entries
           [[1; 2; 3; 4; 5; 6]; [10; 20; 30; 40; 50; 60]]
           (hostMatrix 0 Int32 2 3) (hostMatrix 1 Int32 2 3)
           {| block := 0; cell := 0 |} {| block := 1; cell := 0 |}
           eq_refl eq_refl eq_refl eq_refl (fun H => Nat.neq_succ_0 _ H)
           eq_refl eq_refl eq_refl eq_refl eq_refl).
Defined.

(** X8: [m1 -= m2] under the same conditions: every entry of [m1] becomes the
    difference of the entries of [m1] and [m2] at its coordinates. *)
Theorem sub_assign_subtracts_entries (h : Heap) (this m : Matrix) (p pm : Pointer) :
  Matrix_wf this = true -> Matrix_wf m = true ->
  _data (_value this) = Some p -> _data (_value m) = Some pm ->
  block pm <> block p ->
  entries_allocated h this = true -> entries_allocated h m = true ->
  active_size m 0 = active_size this 0 -> active_size m 1 = active_size this 1 ->
  Type_ m = Type_ this ->
  exists h',
    Matrix_sub_assign this m h = (h', Ok tt) /\
    (forall r c, in_range this r c ->
                 exists a b, entry h this r c = Some a /\ entry h m r c = Some b /\
                             entry h' this r c = Some (a - b) /\
                             entry h' m r c = Some b) /\
    (forall b, b <> block p -> h' !! b = h !! b) /\
    (forall q, block q = block p ->
               (forall r c, in_range this r c -> entry_pointer this r c <> Some q) ->
               load h' q = load h q).
Proof. exact (Matrix_compound_assign_entries Z.sub h this m p pm). Qed.

Lemma sub_assign_subtracts_entries_witness :
  let h := [[10; 20; 30; 40; 50; 60]; [1; 2; 3; 4; 5; 6]] in
  let this := hostMatrix 0 Float 3 2 in
  let m := hostMatrix 1 Float 3 2 in
  exists h',
    Matrix_sub_assign this m h = (h', Ok tt) /\
    (forall r c, in_range this r c ->
                 exists a b, entry h this r c = Some a /\ entry h m r c = Some b /\
                             entry h' this r c = Some (a - b) /\
                             entry h' m r c = Some b) /\
    (forall b, b <> 0%nat -> h' !! b = h !! b) /\
    (forall q, block q = 0%nat ->
               (forall r c, in_range this r c -> entry_pointer this r c <> Some q) ->
               load h' q = load h q).
Proof.
  exact (sub_assign_subtracts_entries
           [[10; 20; 30; 40; 50; 60]; [1; 2; 3; 4; 5; 6]]
           (hostMatrix 0 Float 3 2) (hostMatrix 1 Float 3 2)
           {| block := 0; cell := 0 |} {| block := 1; cell := 0 |}
           eq_refl eq_refl eq_refl eq_refl (fun H => Nat.neq_succ_0 _ H)
           eq_refl eq_refl eq_refl eq_refl eq_refl).
Defined.

Lemma scalar_compound_assign_entries_witness :
  let h := [[1; 2; 3; 4; 5; 6]; [7]] in
  let this := hostMatrix 0 Int32 2 3 in
  let s := {| _data := Some {| block := 1; cell := 0 |}; _type := Int32;
              _layout := Some ScalarLayout |} in
  exists h',
    Matrix_scalar_compound_assign Z.mul this s h = (h', Ok tt) /\
    (forall r c, in_range this r c ->
                 entry h' this r c = (fun a => a * 7) <$> entry h this r c) /\
    (forall b, b <> 0%nat -> h' !! b = h !! b) /\
    (forall q, block q = 0%nat ->
               (forall r c, in_range this r c -> entry_pointer this r c <> Some q) ->
               load h' q = load h q).
Proof.
  exact (scalar_compound_assign_entries Z.mul
           [[1; 2; 3; 4; 5; 6]; [7]] (hostMatrix 0 Int32 2 3)
           {| _data := Some {| block := 1; cell := 0 |}; _type := Int32;
              _layout := Some ScalarLayout |}
           {| block := 0; cell := 0 |} {| block := 1; cell := 0 |} 7
           eq_refl eq_refl eq_refl eq_refl eq_refl (fun H => Nat.neq_succ_0 _ H) eq_refl).
Defined.

(** *** The checks of [operator-=] *)

Lemma sizes_mismatch_columns_equal (this m : Matrix) :
  Matrix_wf this = true -> Matrix_wf m = true ->
  Columns m = Columns this -> sizes_mismatch this m = Ok false.
Proof.
  intros Hthis Hm. matrix_cases this Hthis; matrix_cases m Hm;
    unfold sizes_mismatch, Rows, Columns; cbn -[to_size_t];
    intros [= ->]; rewrite Z.eqb_refl;
    match goal with |- context [?a =? ?b] => destruct (a =? b) end; reflexivity.
Qed.

(** X10: [m1 -= m2] checks the size first, as [m1 += m2] does: when the rows
    and the columns both differ it fails with [sizeMismatch], whatever
    the element types, and touches no memory. *)
Theorem sub_assign_size_mismatch (h : Heap) (this m : Matrix) :
  Matrix_wf this = true -> Matrix_wf m = true ->
  Rows m <> Rows this -> Columns m <> Columns this ->
  Matrix_sub_assign this m h = (h, Throw sizeMismatch).
Proof.
  intros Hthis Hm Hrows Hcols.
  unfold Matrix_sub_assign, Matrix_compound_assign, bind, lift.
  by rewrite (sizes_mismatch_both_differ this m Hthis Hm Hrows Hcols).
Qed.

Lemma sub_assign_size_mismatch_witness :
  let h := [replicate 12 1; replicate 12 2] in
  Matrix_sub_assign (hostMatrix 0 Float 3 4) (hostMatrix 1 Int32 4 3) h
  = (h, Throw sizeMismatch).
Proof.
  apply sub_assign_size_mismatch; [reflexivity|reflexivity|discriminate|discriminate].
Defined.

(** X11: [m1 -= m2] for element types that differ fails with [typeMismatch]
    as soon as one dimension agrees, also when the other does not, and
    touches no memory. *)
Theorem sub_assign_type_mismatch (h : Heap) (this m : Matrix) :
  Matrix_wf this = true -> Matrix_wf m = true ->
  Rows m = Rows this \/ Columns m = Columns this ->
  Type_ m <> Type_ this ->
  Matrix_sub_assign this m h = (h, Throw typeMismatch).
Proof.
  intros Hthis Hm Hsame Htype.
  unfold Matrix_sub_assign, Matrix_compound_assign, bind, lift.
  assert (sizes_mismatch this m = Ok false) as ->.
  { destruct Hsame; [by apply sizes_mismatch_rows_equal|by apply sizes_mismatch_columns_equal]. }
  by rewrite bool_decide_eq_false_2.
Qed.

Lemma sub_assign_type_mismatch_witness :
  let h := [replicate 12 1; replicate 8 2] in
  Matrix_sub_assign (hostMatrix 0 Float 3 4) (hostMatrix 1 Int32 2 4) h
  = (h, Throw typeMismatch).
Proof.
  apply sub_assign_type_mismatch; [reflexivity|reflexivity|right; reflexivity|discriminate].
Defined.

(** *** Views of views *)

Ltac SubMatrix_steps :=
  unfold SubMatrix, MemoryLayout_ctor, Matrix_ctor, IsDefined; cbn;
  repeat match goal with
    | |- context [?a >? ?b] => destruct (Z.gtb_spec a b); [lia|]; cbn
    | |- context [?a <=? ?b] => rewrite (proj2 (Z.leb_le a b)) by lia; cbn
    | |- context [bool_decide (?t = Undefined)] =>
        rewrite (bool_decide_eq_false_2 (t = Undefined)) by done; cbn
    end.

(** X12: A submatrix of a submatrix is the submatrix of the original at the
    sum of the start coordinates: same pointer, same layout. *)
Theorem SubMatrix_SubMatrix (m : Matrix) (p : Pointer)
  (row1 column1 numRows1 numColumns1 row2 column2 numRows2 numColumns2 : Z) :
  Matrix_wf m = true -> _data (_value m) = Some p ->
  numRows1 <= active_size m 0 -> numColumns1 <= active_size m 1 ->
  numRows2 <= numRows1 -> numColumns2 <= numColumns1 ->
  exists view1 view2,
    SubMatrix m row1 column1 numRows1 numColumns1 = Ok view1 /\
    SubMatrix view1 row2 column2 numRows2 numColumns2 = Ok view2 /\
    SubMatrix m (row1 + row2) (column1 + column2) numRows2 numColumns2 = Ok view2.
Proof.
  intros Hwf Hp Hr1 Hc1 Hr2 Hc2.
  matrix_cases m Hwf; unfold active_size in *; cbn in *; subst data;
    eexists _, _; (split; [|split]).
  - SubMatrix_steps. reflexivity.
  - SubMatrix_steps. reflexivity.
  - SubMatrix_steps. unfold SetLayout, advance; cbn; do 5 f_equal; lia.
  - SubMatrix_steps. reflexivity.
  - SubMatrix_steps. reflexivity.
  - SubMatrix_steps. unfold SetLayout, advance; cbn; do 5 f_equal; lia.
Qed.

Lemma SubMatrix_SubMatrix_witness :
  exists view1 view2,
    SubMatrix (hostMatrix 0 Float 4 5) 1 1 3 4 = Ok view1 /\
    SubMatrix view1 1 2 2 2 = Ok view2 /\
    SubMatrix (hostMatrix 0 Float 4 5) (1 + 1) (1 + 2) 2 2 = Ok view2.
Proof.
  apply (SubMatrix_SubMatrix (hostMatrix 0 Float 4 5) {| block := 0; cell := 0 |});
    [reflexivity|reflexivity|cbn; lia|cbn; lia|lia|lia].
Defined.

End MatrixOperatorsSpec.
